(** * The draw-history tree of the conjecture engine

    A shallow embedding of
    [hypothesis/internal/conjecture/datatree.py]: the compressed trie of
    draws ([TreeNode], [DataTree]) and the recording observer that grows it
    ([TreeRecordingObserver]), followed by the properties of the recording
    protocol.

    Python objects live in an object store: a [TreeNode] is referred to by
    its address, the store is the list of all nodes ever allocated, and a
    constructor call appends to it.  The observer and the tree refer to the
    same nodes, so a mutation made through the observer is seen by every
    later observer. *)

From stdpp Require Import base numbers list gmap strings.
From Stdlib Require Import ZArith Lia.

Open Scope Z_scope.
Open Scope nat_scope.

(** ** Data model *)

(** Modelled from the spec: the [Status] enumeration is imported from
    [hypothesis.internal.conjecture.data], which is not part of the sources
    at hand; the spec lists its four members.  It is an integer enumeration,
    so a status supports [==] and [!=] and does not support subscripting. *)
Inductive Status : Type :=
  | OVERRUN
  | INVALID
  | VALID
  | INTERESTING.

#[global] Instance Status_eq_dec : EqDecision Status.
Proof. solve_decision. Defined.

(** The [transition] attribute holds [None], a [dict] from drawn values to
    child nodes, or a [Status]. *)
Inductive Transition : Type :=
  | Live                          (* None *)
  | Branch (d : gmap Z nat)       (* dict: value -> address of the child *)
  | Terminal (st : Status).       (* a Status *)

Record TreeNode : Type := mkTreeNode {
  bits : list Z;
  values : list Z;
  transition : Transition
}.

(** [TreeNode()] with the attribute defaults. *)
Definition TreeNode_new : TreeNode :=
  {| bits := []; values := []; transition := Live |}.

Definition set_bits (l : list Z) (n : TreeNode) : TreeNode :=
  {| bits := l; values := values n; transition := transition n |}.

Definition set_values (l : list Z) (n : TreeNode) : TreeNode :=
  {| bits := bits n; values := l; transition := transition n |}.

Definition set_transition (t : Transition) (n : TreeNode) : TreeNode :=
  {| bits := bits n; values := values n; transition := t |}.

Definition is_dict (t : Transition) : bool :=
  match t with Branch _ => true | _ => false end.

Record DataTree : Type := mkDataTree {
  cap : Z;
  root : nat
}.

(** The exceptions the module can raise. *)
Inductive Exception : Type :=
  | Flaky (msg : string)
  | AssertionError
  | IndexError
  | TypeError
  | NameError (name : string).

(** How a call ends.  [Stuck] stands for following an address that is not
    allocated, which no Python state does; [wf] below rules it out. *)
Inductive Outcome : Type :=
  | Returned
  | Raised (e : Exception)
  | Stuck.

(** The store, the tree and the attributes of the observer in use. *)
Record State : Type := mkState {
  heap : list TreeNode;
  tree : DataTree;
  current_node : nat;
  index_in_current_node : nat
}.

Definition set_heap (h : list TreeNode) (s : State) : State :=
  {| heap := h; tree := tree s; current_node := current_node s;
     index_in_current_node := index_in_current_node s |}.

Definition set_index (i : nat) (s : State) : State :=
  {| heap := heap s; tree := tree s; current_node := current_node s;
     index_in_current_node := i |}.

Definition set_current (a i : nat) (s : State) : State :=
  {| heap := heap s; tree := tree s; current_node := a;
     index_in_current_node := i |}.

(** ** TreeNode.split_at *)

(** The child shares the old [transition] object only until the last line
    rebinds [self.transition] to a fresh dict, so no dict is reachable from
    two nodes once the call has returned. *)
Definition split_at (h : list TreeNode) (self : nat) (i : nat)
  : Outcome * list TreeNode :=
  match h !! self with
  | None => (Stuck, h)
  | Some node =>
    (* child = TreeNode(bits[i + 1:], values[i + 1:], self.transition) *)
    let child := {| bits := drop (S i) (bits node);
                    values := drop (S i) (values node);
                    transition := transition node |} in
    let child_addr := length h in
    let h := h ++ [child] in
    (* key = self.values[i] *)
    match values node !! i with
    | None => (Raised IndexError, h)
    | Some key =>
      (* del self.values[i:]; del self.bits[i + 1:] *)
      let node := set_values (take i (values node)) node in
      let node := set_bits (take (S i) (bits node)) node in
      let h := <[self := node]> h in
      (* assert len(self.values) == i; assert len(self.bits) == i + 1 *)
      if decide (length (values node) ≠ i) then (Raised AssertionError, h)
      else if decide (length (bits node) ≠ S i) then (Raised AssertionError, h)
      (* self.transition = {key: child} *)
      else (Returned,
            <[self := set_transition (Branch {[ key := child_addr ]}) node]> h)
    end
  end.

(** ** DataTree *)

(** [DataTree(cap)] in an empty store, followed by [new_observer()]. *)
Definition DataTree_init (cap : Z) : State :=
  {| heap := [TreeNode_new]; tree := {| cap := cap; root := 0 |};
     current_node := 0; index_in_current_node := 0 |}.

Definition is_exhausted (s : State) : bool := false.

(** [new_observer()]: a fresh observer bound to the root replaces the one in
    use. *)
Definition new_observer (s : State) : State :=
  set_current (root (tree s)) 0 s.

(** ** TreeRecordingObserver *)

Definition inconsistent_generation : Exception :=
  Flaky ("Inconsistent data generation! Data generation behaved differently "
      +:+ "between different runs. Is your data generation depending on external "
      +:+ "state?").

Definition draw_bits (n_bits : Z) (forced : bool) (value : Z) (s : State)
  : Outcome * State :=
  let i := index_in_current_node s in
  (* self.__index_in_current_node += 1 *)
  let s := set_index (S i) s in
  let a := current_node s in
  match heap s !! a with
  | None => (Stuck, s)
  | Some node =>
    (* the width: compared with the recorded one, or appended *)
    let checked : Exception + TreeNode * list TreeNode :=
      if decide (i < length (bits node)) then
        if decide (Some n_bits ≠ bits node !! i)
        then inl inconsistent_generation
        else inr (node, heap s)
      else
        (* assert node.transition is None; node.bits.append(n_bits) *)
        match transition node with
        | Live =>
          let node := set_bits (bits node ++ [n_bits]) node in
          inr (node, <[a := node]> (heap s))
        | _ => inl AssertionError
        end in
    match checked with
    | inl e => (Raised e, s)
    | inr (node, h) =>
      let s := set_heap h s in
      (* assert i < len(node.bits) *)
      if decide (¬ i < length (bits node)) then (Raised AssertionError, s)
      else if decide (i < length (values node)) then
        if decide (Some value ≠ values node !! i) then
          (* node.split_at(i) *)
          match split_at (heap s) a i with
          | (Returned, h) =>
            match h !! a with
            | None => (Stuck, set_heap h s)
            | Some node =>
              (* assert i == len(node.values) *)
              if decide (i ≠ length (values node))
              then (Raised AssertionError, set_heap h s)
              else
                (* new_node = TreeNode(); node.transition[value] = new_node *)
                let new_node := length h in
                let h := h ++ [TreeNode_new] in
                match transition node with
                | Branch d =>
                  let node := set_transition (Branch (<[value := new_node]> d)) node in
                  (Returned, set_current new_node 0 (set_heap (<[a := node]> h) s))
                | _ => (Raised TypeError, set_heap h s)
                end
            end
          | (o, h) => (o, set_heap h s)
          end
        else (Returned, s)
      else
        match transition node with
        | Live =>
          (* node.values.append(value) *)
          let node := set_values (values node ++ [value]) node in
          (Returned, set_heap (<[a := node]> (heap s)) s)
        | Branch d =>
          (* node.transition[value], on KeyError setdefault(value, TreeNode());
             then self.__index_in_current_node = 0 *)
          match d !! value with
          | Some child => (Returned, set_current child 0 s)
          | None =>
            let new_node := length (heap s) in
            let h := heap s ++ [TreeNode_new] in
            let node := set_transition (Branch (<[value := new_node]> d)) node in
            (Returned, set_current new_node 0 (set_heap (<[a := node]> h) s))
          end
        | Terminal st =>
          (* subscripting a Status raises TypeError; the handler asserts
             node.transition != Status.OVERRUN and raises Flaky *)
          if decide (st = OVERRUN) then (Raised AssertionError, s)
          else (Raised inconsistent_generation, s)
        end
    end
  end.

(** The message of the second [Flaky] is built from [existing.status.name];
    no name [existing] is bound in the method or in the module, so
    evaluating the argument raises [NameError] before [Flaky] is
    constructed. *)
Definition conclude_test (status : Status) (interesting_origin : option Z)
    (s : State) : Outcome * State :=
  if decide (status = OVERRUN) then (Returned, s)
  else
    let i := index_in_current_node s in
    let a := current_node s in
    match heap s !! a with
    | None => (Stuck, s)
    | Some node =>
      if decide (i < length (values node) ∨ is_dict (transition node) = true)
      then (Raised inconsistent_generation, s)
      else
        match transition node with
        | Live =>
          (Returned,
           set_heap (<[a := set_transition (Terminal status) node]> (heap s)) s)
        | Terminal st =>
          if decide (st ≠ status) then (Raised (NameError "existing"), s)
          else (Returned, s)
        | Branch _ =>
          (* a dict differs from every status; the test above has already
             raised for a dict *)
          (Raised (NameError "existing"), s)
        end
    end.

(** ** Trials and reachable states *)

(** The calls a campaign makes on the tree and on the observer in use. *)
Inductive Call : Type :=
  | NewObserver
  | DrawBits (n_bits : Z) (forced : bool) (value : Z)
  | ConcludeTest (status : Status) (interesting_origin : option Z).

Definition call (c : Call) (s : State) : Outcome * State :=
  match c with
  | NewObserver => (Returned, new_observer s)
  | DrawBits n_bits forced value => draw_bits n_bits forced value s
  | ConcludeTest status origin => conclude_test status origin s
  end.

(** Every state a campaign can be in: a tree is created, then calls are made
    in any order; a call that raised leaves the state it had reached. *)
Inductive reachable : State → Prop :=
  | reachable_init cap : reachable (DataTree_init cap)
  | reachable_call c s : reachable s → reachable (call c s).2.

(** The draws of a trial, stopping at the first exception. *)
Fixpoint draw_all (ds : list (Z * bool * Z)) (s : State) : Outcome * State :=
  match ds with
  | [] => (Returned, s)
  | (n_bits, forced, value) :: ds' =>
    match draw_bits n_bits forced value s with
    | (Returned, s') => draw_all ds' s'
    | r => r
    end
  end.

(** One trial: a fresh observer, the draws, the conclusion. *)
Definition run_trial (ds : list (Z * bool * Z)) (status : Status)
    (interesting_origin : option Z) (s : State) : Outcome * State :=
  match draw_all ds (new_observer s) with
  | (Returned, s') => conclude_test status interesting_origin s'
  | r => r
  end.

(** ** Well-formed states *)

(** What every node of a store of [len] objects satisfies: a dict records
    the width of the draw it branches on, so its node has one more width
    than values, every other node has as many; a dict only holds allocated
    addresses; no node carries [Status.OVERRUN]. *)
Record node_wf (len : nat) (n : TreeNode) : Prop := {
  node_shape :
    match transition n with
    | Branch _ => length (bits n) = S (length (values n))
    | _ => length (bits n) = length (values n)
    end;
  node_closed :
    ∀ d v c, transition n = Branch d → d !! v = Some c → c < len;
  node_status : transition n ≠ Terminal OVERRUN
}.

Record wf (s : State) : Prop := {
  wf_root : root (tree s) < length (heap s);
  wf_current : current_node s < length (heap s);
  wf_nodes : Forall (node_wf (length (heap s))) (heap s);
  wf_index :
    ∀ n, heap s !! current_node s = Some n → transition n = Live →
         index_in_current_node s ≤ length (bits n)
}.

(** An address-to-depth map: a child starts where the run of its parent,
    the branching draw included, ends.  It makes the store a forest. *)
Definition ranked (pos : nat → nat) (h : list TreeNode) : Prop :=
  ∀ a n d v c,
    h !! a = Some n → transition n = Branch d → d !! v = Some c →
    pos c = pos a + length (bits n).

(** ** Read-only replay *)

(** Where one recorded draw leads from position [i] of node [a], if the
    store already holds it. *)
Definition walk_step (h : list TreeNode) (a i : nat) (d : Z * bool * Z)
  : option (nat * nat) :=
  let '(n_bits, _, value) := d in
  match h !! a with
  | None => None
  | Some node =>
    if decide (bits node !! i = Some n_bits) then
      if decide (i < length (values node)) then
        if decide (values node !! i = Some value) then Some (a, S i) else None
      else
        match transition node with
        | Branch dict =>
          match dict !! value with
          | Some child => Some (child, 0)
          | None => None
          end
        | _ => None
        end
    else None
  end.

Fixpoint walk (h : list TreeNode) (a i : nat) (ds : list (Z * bool * Z))
  : option (nat * nat) :=
  match ds with
  | [] => Some (a, i)
  | d :: ds' =>
    match walk_step h a i d with
    | Some (a', i') => walk h a' i' ds'
    | None => None
    end
  end.


(** ** The cases of draw_bits *)

(** The store after [draw_bits] has split [node], at address [cur], at
    index [i0], where [key] was recorded and [value] is drawn. *)
Definition split_store (h : list TreeNode) (cur i0 : nat) (node : TreeNode)
    (key value : Z) : list TreeNode :=
  <[cur := {| bits := take (S i0) (bits node);
              values := take i0 (values node);
              transition :=
                Branch (<[value := S (length h)]> {[ key := length h ]}) |}]> h
  ++ [ {| bits := drop (S i0) (bits node);
          values := drop (S i0) (values node);
          transition := transition node |};
       TreeNode_new ].

(** What [draw_bits(n_bits, forced, value)] does in a well-formed state
    whose current node is [node], case by case: the outcome and the state
    the call leaves. *)
Inductive draw_case (n_bits value : Z) (s : State) (node : TreeNode)
  : Outcome → State → Prop :=
  | draw_width_differs :
      index_in_current_node s < length (bits node) →
      bits node !! index_in_current_node s ≠ Some n_bits →
      draw_case n_bits value s node
        (Raised inconsistent_generation)
        (set_index (S (index_in_current_node s)) s)
  | draw_past_closed_run :
      length (bits node) ≤ index_in_current_node s →
      transition node ≠ Live →
      draw_case n_bits value s node
        (Raised AssertionError)
        (set_index (S (index_in_current_node s)) s)
  | draw_extends_run :
      index_in_current_node s = length (bits node) →
      length (values node) = length (bits node) →
      transition node = Live →
      draw_case n_bits value s node
        Returned
        {| heap := <[current_node s :=
                       {| bits := bits node ++ [n_bits];
                          values := values node ++ [value];
                          transition := Live |}]> (heap s);
           tree := tree s;
           current_node := current_node s;
           index_in_current_node := S (index_in_current_node s) |}
  | draw_follows_run :
      bits node !! index_in_current_node s = Some n_bits →
      values node !! index_in_current_node s = Some value →
      draw_case n_bits value s node
        Returned
        (set_index (S (index_in_current_node s)) s)
  | draw_splits_run key :
      bits node !! index_in_current_node s = Some n_bits →
      values node !! index_in_current_node s = Some key →
      key ≠ value →
      draw_case n_bits value s node
        Returned
        {| heap := split_store (heap s) (current_node s)
                     (index_in_current_node s) node key value;
           tree := tree s;
           current_node := S (length (heap s));
           index_in_current_node := 0 |}
  | draw_follows_branch d child :
      index_in_current_node s = length (values node) →
      bits node !! index_in_current_node s = Some n_bits →
      transition node = Branch d →
      d !! value = Some child →
      draw_case n_bits value s node
        Returned
        (set_current child 0 s)
  | draw_adds_branch d :
      index_in_current_node s = length (values node) →
      bits node !! index_in_current_node s = Some n_bits →
      transition node = Branch d →
      d !! value = None →
      draw_case n_bits value s node
        Returned
        {| heap :=
             <[current_node s :=
                 set_transition (Branch (<[value := length (heap s)]> d)) node]>
               (heap s)
             ++ [TreeNode_new];
           tree := tree s;
           current_node := length (heap s);
           index_in_current_node := 0 |}.

(** The draws [ds] made so far by the observer in use are in the store:
    replaying them from the root leads to the observer's position, which
    lies within the recorded values of its node. *)
Definition recorded (ds : list (Z * bool * Z)) (s : State) : Prop :=
  walk (heap s) (root (tree s)) 0 ds
    = Some (current_node s, index_in_current_node s)
  ∧ ∀ n, heap s !! current_node s = Some n →
         index_in_current_node s ≤ length (values n).

(** ** Trials the store holds *)

(** A trial concluded with [st] at position [i] of node [a]: the node
    carries [st] and [i] is past its recorded values. *)
Definition concluded_at (h : list TreeNode) (a i : nat) (st : Status) : Prop :=
  ∃ node, h !! a = Some node ∧ length (values node) ≤ i
          ∧ transition node = Terminal st.

(** The store holds the trial that draws [ds] from the root [r] and
    concludes with [st]. *)
Definition holds (h : list TreeNode) (r : nat) (ds : list (Z * bool * Z))
    (st : Status) : Prop :=
  ∃ a i, walk h r 0 ds = Some (a, i) ∧ concluded_at h a i st.

(** Any further calls, whatever they return or raise. *)
Fixpoint calls (cs : list Call) (s : State) : State :=
  match cs with
  | [] => s
  | c :: cs' => calls cs' (call c s).2
  end.

(** Where a position of the old store is found in [split_store]: the part
    of the run of [cur] past [i0] has moved to the child. *)
Definition moved (cur i0 child : nat) (p : nat * nat) : nat * nat :=
  if decide (p.1 = cur ∧ i0 < p.2) then (child, p.2 - S i0) else p.

(** ** The trials of the examples *)

(** Trial A draws [(8, false, 3)] and concludes VALID on a new tree. *)
Definition after_A : State :=
  (run_trial [(8%Z, false, 3%Z)] VALID None (DataTree_init 0)).2.

(** Trial C then draws [(8, false, 5)] and concludes VALID. *)
Definition after_C : State :=
  (run_trial [(8%Z, false, 5%Z)] VALID None after_A).2.

(** A trial with no draw at all, concluded VALID on a new tree. *)
Definition after_empty : State :=
  (run_trial [] VALID None (DataTree_init 0)).2.

(** ** The rest of the module *)

(** [_is_simple_mask(mask)]: Python integers are unbounded and [&] is the
    two's-complement conjunction, as [Z.land]. *)
Definition _is_simple_mask (mask : Z) : bool :=
  (Z.land mask (mask + 1) =? 0)%Z.

(** The three placeholders of [DataTree]: [generate_novel_prefix] returns
    the empty byte string, [rewrite] returns the buffer with no predicted
    status, [simulate_test_function] does nothing. *)
Definition generate_novel_prefix {Random : Type} (random : Random) (s : State)
  : list Byte.byte := [].

Definition DataTree_rewrite {Buffer : Type} (buffer : Buffer) (s : State)
  : Buffer * option Status := (buffer, None).

Definition simulate_test_function {Data : Type} (data : Data) (s : State)
  : State := s.

(** The widths and the values of a list of draws, in order. *)
Definition widths (ds : list (Z * bool * Z)) : list Z := map (λ d, d.1.1) ds.
Definition drawn (ds : list (Z * bool * Z)) : list Z := map (λ d, d.2) ds.

(** * Properties *)

(** ** TreeNode.split_at *)

Lemma split_at_returns (h : list TreeNode) (self i : nat) (node : TreeNode) (key : Z) :
  h !! self = Some node →
  values node !! i = Some key →
  i < length (bits node) →
  split_at h self i =
    (Returned,
     <[self := {| bits := take (S i) (bits node);
                  values := take i (values node);
                  transition := Branch {[ key := length h ]} |}]> h
     ++ [ {| bits := drop (S i) (bits node);
             values := drop (S i) (values node);
             transition := transition node |} ]).
Proof.
  intros Hself Hkey Hbits. unfold split_at. rewrite Hself, Hkey. simpl.
  pose proof (lookup_lt_Some _ _ _ Hkey) as Hi.
  pose proof (lookup_lt_Some _ _ _ Hself) as Ha.
  rewrite length_take_le by lia.
  rewrite (length_take_le (bits node)) by lia.
  rewrite decide_False by (intros Hn; apply Hn; reflexivity).
  rewrite decide_False by (intros Hn; apply Hn; reflexivity).
  rewrite list_insert_insert_eq.
  rewrite insert_app_l by done. reflexivity.
Qed.

(** C3: on a node that satisfies the node invariant
    [len(values) <= len(bits)], [split_at(i)] with [i < len(values)] returns
    after allocating exactly one node, the child, which holds
    [bits[i+1:]], [values[i+1:]] and the old transition; the node itself is
    left with [bits[:i+1]], [values[:i]] and a dict that maps the old
    [values[i]] to the child; no other node changes. *)
Theorem split_at_spec (h : list TreeNode) (self i : nat) (node : TreeNode) :
  h !! self = Some node →
  length (values node) ≤ length (bits node) →
  i < length (values node) →
  ∃ (key : Z) (h' : list TreeNode),
    values node !! i = Some key ∧
    split_at h self i = (Returned, h') ∧
    length h' = S (length h) ∧
    h' !! length h =
      Some {| bits := drop (S i) (bits node);
              values := drop (S i) (values node);
              transition := transition node |} ∧
    h' !! self =
      Some {| bits := take (S i) (bits node);
              values := take i (values node);
              transition := Branch {[ key := length h ]} |} ∧
    (∀ a, a ≠ self → a < length h → h' !! a = h !! a).
Proof.
  intros Hself Hinv Hi.
  destruct (lookup_lt_is_Some_2 (values node) i Hi) as [key Hkey].
  pose proof (lookup_lt_Some _ _ _ Hself) as Ha.
  exists key. eexists. split; [done|].
  split; [apply (split_at_returns h self i node key); [done|done|lia]|].
  split; [rewrite length_app, length_insert; simpl; lia|].
  split.
  { rewrite lookup_app_r by (rewrite length_insert; lia).
    rewrite length_insert, Nat.sub_diag. reflexivity. }
  split.
  { rewrite lookup_app_l by (rewrite length_insert; lia).
    by rewrite list_lookup_insert_eq. }
  intros a Hne Hlt.
  rewrite lookup_app_l by (rewrite length_insert; lia).
  by rewrite list_lookup_insert_ne.
Qed.

(** C3, on the node [TreeNode(bits=[8, 4], values=[3, 1])] split at 0. *)
Lemma split_at_spec_witness :
  ∃ (key : Z) (h' : list TreeNode),
    [3%Z; 1%Z] !! 0 = Some key ∧
    split_at [ {| bits := [8%Z; 4%Z]; values := [3%Z; 1%Z];
                  transition := Terminal VALID |} ] 0 0 = (Returned, h') ∧
    length h' = 2 ∧
    h' !! 1 = Some {| bits := [4%Z]; values := [1%Z];
                      transition := Terminal VALID |} ∧
    h' !! 0 = Some {| bits := [8%Z]; values := [];
                      transition := Branch {[ key := 1 ]} |} ∧
    (∀ a, a ≠ 0 → a < 1 → h' !! a =
       [ {| bits := [8%Z; 4%Z]; values := [3%Z; 1%Z];
            transition := Terminal VALID |} ] !! a).
Proof.
  apply (split_at_spec
           [ {| bits := [8%Z; 4%Z]; values := [3%Z; 1%Z];
                transition := Terminal VALID |} ] 0 0
           {| bits := [8%Z; 4%Z]; values := [3%Z; 1%Z];
              transition := Terminal VALID |}).
  - reflexivity.
  - simpl. lia.
  - simpl. lia.
Defined.

(** ** conclude_test *)

(** C5: [conclude_test(Status.OVERRUN, origin)] returns at once and leaves
    the whole state, hence every node of the store, as it was. *)
Theorem conclude_test_overrun (origin : option Z) (s : State) :
  conclude_test OVERRUN origin s = (Returned, s).
Proof. reflexivity. Qed.

(** C6: a conclusion other than OVERRUN at an index before the end of the
    recorded values of the current node, or on a node whose transition is a
    dict, raises the inconsistent-generation [Flaky] and leaves the state
    as it was. *)
Theorem conclude_test_early (status : Status) (origin : option Z)
    (s : State) (node : TreeNode) :
  status ≠ OVERRUN →
  heap s !! current_node s = Some node →
  index_in_current_node s < length (values node)
    ∨ (∃ d, transition node = Branch d) →
  conclude_test status origin s = (Raised inconsistent_generation, s).
Proof.
  intros Hst Hnode Hcase. unfold conclude_test.
  rewrite decide_False by done. rewrite Hnode.
  rewrite decide_True; [done|].
  destruct Hcase as [Hlt|[d Hd]]; [by left|right]. by rewrite Hd.
Qed.

(** C6, on the tree that holds trial A: a second trial concludes INVALID
    before making the recorded draw. *)
Lemma conclude_test_early_witness :
  conclude_test INVALID None (new_observer after_A)
    = (Raised inconsistent_generation, new_observer after_A).
Proof.
  apply (conclude_test_early INVALID None (new_observer after_A)
           {| bits := [8%Z]; values := [3%Z]; transition := Terminal VALID |}).
  - discriminate.
  - reflexivity.
  - left. simpl. lia.
Defined.

(** At the end of the recorded values of a node that carries another
    status, [conclude_test] raises [NameError] for the unbound name
    [existing] and changes nothing. *)
Lemma conclude_test_other_status (status st : Status) (origin : option Z)
    (s : State) (node : TreeNode) :
  status ≠ OVERRUN →
  heap s !! current_node s = Some node →
  length (values node) ≤ index_in_current_node s →
  transition node = Terminal st →
  st ≠ status →
  conclude_test status origin s = (Raised (NameError "existing"), s).
Proof.
  intros Hst Hnode Hi Ht Hne. unfold conclude_test.
  rewrite decide_False by done. rewrite Hnode, Ht.
  rewrite decide_False by (intros [?|?]; [lia|done]).
  by rewrite decide_True.
Qed.

(** C2: trial A draws [(8, false, 3)] and concludes VALID; a second trial
    makes the same draw and concludes INVALID.  The call raises
    [NameError], not [Flaky], and no message naming the two statuses is
    built. *)
Theorem conclude_test_status_mismatch :
  heap after_A
    = [ {| bits := [8%Z]; values := [3%Z]; transition := Terminal VALID |} ]
  ∧ (run_trial [(8%Z, false, 3%Z)] INVALID None after_A).1
    = Raised (NameError "existing")
  ∧ heap (run_trial [(8%Z, false, 3%Z)] INVALID None after_A).2
    = heap after_A.
Proof. by vm_compute. Qed.

(** ** The cases of draw_bits *)

Lemma draw_bits_split (n_bits : Z) (forced : bool) (value : Z) (s : State)
    (node : TreeNode) (key : Z) :
  heap s !! current_node s = Some node →
  bits node !! index_in_current_node s = Some n_bits →
  values node !! index_in_current_node s = Some key →
  value ≠ key →
  draw_bits n_bits forced value s =
    (Returned,
     {| heap := split_store (heap s) (current_node s)
                  (index_in_current_node s) node key value;
        tree := tree s;
        current_node := S (length (heap s));
        index_in_current_node := 0 |}).
Proof.
  destruct s as [h t a i]; simpl. intros Hnode Hw Hkey Hne.
  pose proof (lookup_lt_Some _ _ _ Hnode) as Ha.
  pose proof (lookup_lt_Some _ _ _ Hw) as Hlt.
  pose proof (lookup_lt_Some _ _ _ Hkey) as Hv.
  unfold draw_bits; simpl. rewrite Hnode.
  rewrite (decide_True (P := i < length (bits node))) by done.
  rewrite Hw.
  rewrite (decide_False (P := Some n_bits ≠ Some n_bits))
    by (intros Hn; by apply Hn).
  simpl.
  rewrite (decide_False (P := ¬ i < length (bits node)))
    by (intros Hn; by apply Hn).
  rewrite (decide_True (P := i < length (values node))) by done.
  rewrite Hkey.
  rewrite (decide_True (P := Some value ≠ Some key)) by congruence.
  rewrite (split_at_returns h a i node key) by done.
  simpl.
  rewrite lookup_app_l by (rewrite length_insert; lia).
  rewrite list_lookup_insert_eq by lia. simpl.
  rewrite length_take_le by lia.
  rewrite decide_False by (intros Hn; by apply Hn).
  simpl. unfold set_current, set_heap, set_transition; simpl.
  rewrite length_app, length_insert; simpl.
  rewrite Nat.add_1_r.
  rewrite <- (assoc_L (++)); simpl.
  rewrite !insert_app_l by (rewrite length_insert; lia).
  by rewrite list_insert_insert_eq.
Qed.

(** C4: a draw of the recorded width at a position that holds another
    value splits the node once, at that position; the node is left with a
    dict of exactly two entries, the recorded value leading to the child
    that keeps the rest of the run and the old transition, the new value
    leading to a new empty node; the observer is at position 0 of that new
    node. *)
Theorem draw_bits_diverges (n_bits : Z) (forced : bool) (value : Z)
    (s : State) (node : TreeNode) (key : Z) :
  heap s !! current_node s = Some node →
  bits node !! index_in_current_node s = Some n_bits →
  values node !! index_in_current_node s = Some key →
  value ≠ key →
  ∃ (h1 : list TreeNode) (s' : State) (children : gmap Z nat),
    split_at (heap s) (current_node s) (index_in_current_node s)
      = (Returned, h1)
    ∧ length h1 = S (length (heap s))
    ∧ draw_bits n_bits forced value s = (Returned, s')
    ∧ length (heap s') = S (length h1)
    ∧ heap s' !! current_node s =
        Some {| bits := take (S (index_in_current_node s)) (bits node);
                values := take (index_in_current_node s) (values node);
                transition := Branch children |}
    ∧ size children = 2
    ∧ children !! key = Some (length (heap s))
    ∧ children !! value = Some (S (length (heap s)))
    ∧ heap s' !! length (heap s) =
        Some {| bits := drop (S (index_in_current_node s)) (bits node);
                values := drop (S (index_in_current_node s)) (values node);
                transition := transition node |}
    ∧ heap s' !! S (length (heap s)) = Some TreeNode_new
    ∧ (∀ a, a ≠ current_node s → a < length (heap s) →
            heap s' !! a = heap s !! a)
    ∧ current_node s' = S (length (heap s))
    ∧ index_in_current_node s' = 0.
Proof.
  intros Hnode Hw Hkey Hne.
  pose proof (lookup_lt_Some _ _ _ Hnode) as Ha.
  pose proof (lookup_lt_Some _ _ _ Hw) as Hlt.
  eexists. eexists.
  exists (<[value := S (length (heap s))]> {[ key := length (heap s) ]}).
  split; [by apply (split_at_returns _ _ _ node key)|].
  split; [rewrite length_app, length_insert; simpl; lia|].
  split; [by apply (draw_bits_split _ _ _ _ node key)|].
  simpl. unfold split_store. rewrite !length_app, !length_insert. simpl.
  split; [lia|].
  split.
  { rewrite lookup_app_l by (by rewrite length_insert).
    by rewrite list_lookup_insert_eq. }
  split.
  { rewrite map_size_insert_None by (by rewrite lookup_singleton_ne).
    by rewrite map_size_singleton. }
  split; [rewrite lookup_insert_ne by done; apply lookup_singleton_eq|].
  split; [apply lookup_insert_eq|].
  split.
  { rewrite lookup_app_r by (rewrite length_insert; lia).
    by rewrite length_insert, Nat.sub_diag. }
  split.
  { rewrite lookup_app_r by (rewrite length_insert; lia).
    rewrite length_insert.
    by replace (S (length (heap s)) - length (heap s)) with 1 by lia. }
  split; [|done].
  intros a Hna Hla. rewrite lookup_app_l by (by rewrite length_insert).
  by rewrite list_lookup_insert_ne.
Qed.

(** C4, on the tree that holds trial A: a second observer draws
    [(8, false, 5)] where 3 is recorded. *)
Lemma draw_bits_diverges_witness :
  ∃ (h1 : list TreeNode) (s' : State) (children : gmap Z nat),
    split_at (heap after_A) 0 0 = (Returned, h1)
    ∧ length h1 = 2
    ∧ draw_bits 8 false 5 (new_observer after_A) = (Returned, s')
    ∧ length (heap s') = S (length h1)
    ∧ heap s' !! 0 =
        Some {| bits := [8%Z]; values := []; transition := Branch children |}
    ∧ size children = 2
    ∧ children !! 3%Z = Some 1
    ∧ children !! 5%Z = Some 2
    ∧ heap s' !! 1 =
        Some {| bits := []; values := []; transition := Terminal VALID |}
    ∧ heap s' !! 2 = Some TreeNode_new
    ∧ (∀ a, a ≠ 0 → a < 1 → heap s' !! a = heap after_A !! a)
    ∧ current_node s' = 2
    ∧ index_in_current_node s' = 0.
Proof.
  apply (draw_bits_diverges 8 false 5 (new_observer after_A)
           {| bits := [8%Z]; values := [3%Z]; transition := Terminal VALID |}
           3%Z).
  - reflexivity.
  - reflexivity.
  - reflexivity.
  - discriminate.
Defined.

(** In a well-formed state [draw_bits] takes one of the cases of
    [draw_case]; the other paths of the method are not reached. *)

Lemma wf_node (s : State) (a : nat) (n : TreeNode) :
  wf s → heap s !! a = Some n → node_wf (length (heap s)) n.
Proof.
  intros Hwf Ha. exact (proj1 (Forall_lookup _ _) (wf_nodes _ Hwf) a n Ha).
Qed.

Lemma wf_current_node (s : State) :
  wf s → ∃ node, heap s !! current_node s = Some node.
Proof.
  intros Hwf. apply lookup_lt_is_Some_2, (wf_current s Hwf).
Qed.

Lemma draw_bits_cases (n_bits : Z) (forced : bool) (value : Z) (s : State)
    (node : TreeNode) :
  wf s →
  heap s !! current_node s = Some node →
  draw_case n_bits value s node
    (draw_bits n_bits forced value s).1 (draw_bits n_bits forced value s).2.
Proof.
  intros Hwf Hnode.
  pose proof (wf_node s _ _ Hwf Hnode) as [Hshape _ _].
  pose proof (wf_index s Hwf node Hnode) as Hidx.
  pose proof (lookup_lt_Some _ _ _ Hnode) as Ha.
  destruct s as [h t a i]; simpl in *.
  unfold draw_bits; simpl. rewrite Hnode.
  destruct (decide (i < length (bits node))) as [Hlt|Hge].
  - destruct (decide (Some n_bits ≠ bits node !! i)) as [Hw|Hw].
    + simpl. apply draw_width_differs; simpl; [done|congruence].
    + apply dec_stable in Hw. symmetry in Hw. simpl.
      rewrite decide_False by (intros Hn; apply Hn; exact Hlt).
      destruct (decide (i < length (values node))) as [Hv|Hv].
      * destruct (lookup_lt_is_Some_2 _ _ Hv) as [key Hkey].
        rewrite Hkey.
        destruct (decide (Some value ≠ Some key)) as [Hne|Heq].
        -- rewrite (split_at_returns h a i node key) by done.
           simpl.
           rewrite lookup_app_l by (rewrite length_insert; lia).
           rewrite list_lookup_insert_eq by lia. simpl.
           rewrite length_take_le by lia.
           rewrite decide_False by (intros Hn; apply Hn; reflexivity).
           assert (key ≠ value) as Hkv by congruence.
           refine (eq_rect _ (draw_case _ _ _ _ Returned)
                     (draw_splits_run n_bits value (mkState h t a i) node key Hw Hkey Hkv) _ _).
           unfold set_current, set_heap, set_transition; simpl.
           rewrite length_app, length_insert; simpl.
           rewrite Nat.add_1_r.
           rewrite <- (assoc_L (++)); simpl.
           rewrite !insert_app_l by (rewrite length_insert; lia).
           rewrite list_insert_insert_eq. reflexivity.
        -- apply dec_stable in Heq. simplify_eq. simpl.
           by apply draw_follows_run.
      * destruct (transition node) as [|d|st] eqn:Ht.
        -- lia.
        -- assert (i = length (values node)) as Hi by lia.
           destruct (d !! value) as [child|] eqn:Hd; simpl.
           ++ exact (draw_follows_branch n_bits value (mkState h t a i) node d child Hi Hw Ht Hd).
           ++ refine (eq_rect _ (draw_case _ _ _ _ Returned)
                     (draw_adds_branch n_bits value (mkState h t a i) node d Hi Hw Ht Hd) _ _).
              unfold set_current, set_heap; simpl.
              rewrite insert_app_l by lia. reflexivity.
        -- lia.
  - destruct (transition node) as [|d|st] eqn:Ht.
    + assert (i = length (bits node)) as Hi by (specialize (Hidx eq_refl); lia).
      simpl. rewrite length_app; simpl.
      rewrite decide_False by (intros Hn; apply Hn; lia).
      rewrite decide_False by lia.
      rewrite Ht. simpl.
      refine (eq_rect _ (draw_case _ _ _ _ Returned)
                (draw_extends_run n_bits value (mkState h t a i) node Hi (eq_sym Hshape) Ht) _ _).
      unfold set_heap, set_values, set_bits; simpl.
      rewrite list_insert_insert_eq. rewrite Ht. reflexivity.
    + simpl. apply draw_past_closed_run; simpl; [lia|congruence].
    + simpl. apply draw_past_closed_run; simpl; [lia|congruence].
Qed.

(** ** Well-formedness is preserved *)

Lemma node_wf_mono (len len' : nat) (n : TreeNode) :
  len ≤ len' → node_wf len n → node_wf len' n.
Proof.
  intros Hle [Hs Hc Ht]. split; [done| |done].
  intros d v c Hd Hv. specialize (Hc d v c Hd Hv). lia.
Qed.

Lemma node_wf_new (len : nat) : node_wf len TreeNode_new.
Proof. split; simpl; [done| |done]. intros d v c Hd. discriminate. Qed.

Lemma nodes_wf_update (h : list TreeNode) (a : nat) (n' : TreeNode)
    (extra : list TreeNode) :
  Forall (node_wf (length h)) h →
  node_wf (length h + length extra) n' →
  Forall (node_wf (length h + length extra)) extra →
  Forall (node_wf (length (<[a := n']> h ++ extra))) (<[a := n']> h ++ extra).
Proof.
  intros Hh Hn Hextra. rewrite length_app, length_insert.
  apply Forall_app. split; [|done].
  apply Forall_insert; [|done].
  eapply Forall_impl; [exact Hh|].
  intros n Hw. eapply node_wf_mono; [|exact Hw]. lia.
Qed.

Lemma nodes_wf_insert (h : list TreeNode) (a : nat) (n' : TreeNode) :
  Forall (node_wf (length h)) h →
  node_wf (length h) n' →
  Forall (node_wf (length (<[a := n']> h))) (<[a := n']> h).
Proof.
  intros Hh Hn. rewrite length_insert. by apply Forall_insert.
Qed.

Lemma wf_init (cap : Z) : wf (DataTree_init cap).
Proof.
  split; simpl; [lia|lia| |].
  - repeat constructor; simpl; [done|discriminate].
  - intros n Hn _. lia.
Qed.

Lemma wf_new_observer (s : State) : wf s → wf (new_observer s).
Proof.
  intros [Hr Hc Hn Hi]. split; simpl; [done|done|done|]. intros; lia.
Qed.

Lemma wf_conclude_test (status : Status) (origin : option Z) (s : State) :
  wf s → wf (conclude_test status origin s).2.
Proof.
  intros Hwf. unfold conclude_test.
  destruct (decide (status = OVERRUN)) as [|Hst]; [done|].
  destruct (heap s !! current_node s) as [node|] eqn:Hnode; [|done].
  destruct (decide _) as [|Hlate]; [done|].
  destruct (transition node) as [|d|st] eqn:Ht; [|done|by destruct (decide _)].
  pose proof (wf_node s _ _ Hwf Hnode) as [Hshape Hclosed _].
  destruct Hwf as [Hr Hc Hn Hi].
  pose proof (lookup_lt_Some _ _ _ Hnode) as Ha.
  rewrite Ht in Hshape.
  split; simpl.
  - by rewrite length_insert.
  - by rewrite length_insert.
  - apply nodes_wf_insert; [done|]. split; simpl; [done| |congruence].
    intros d v c Hd. discriminate.
  - intros n. rewrite list_lookup_insert_eq by done.
    intros [= <-]. simpl. discriminate.
Qed.

Lemma wf_draw_bits (n_bits : Z) (forced : bool) (value : Z) (s : State) :
  wf s → wf (draw_bits n_bits forced value s).2.
Proof.
  intros Hwf.
  destruct (wf_current_node s Hwf) as [node Hnode].
  pose proof (draw_bits_cases n_bits forced value s node Hwf Hnode) as Hcase.
  pose proof (wf_node s _ _ Hwf Hnode) as [Hshape Hclosed Hstatus].
  pose proof (lookup_lt_Some _ _ _ Hnode) as Ha.
  destruct Hwf as [Hr Hc Hn Hi].
  destruct Hcase as [Hlt Hw | Hge Ht | Hi' Hlen Ht | Hw Hv | key Hw Hv Hne
                    | d child Hi' Hw Ht Hd | d Hi' Hw Ht Hd ].
  - split; simpl; [done|done|done|]. intros n Hn' _. simplify_eq. lia.
  - split; simpl; [done|done|done|]. intros n Hn' Hl. simplify_eq.
  - split; simpl.
    + by rewrite length_insert.
    + by rewrite length_insert.
    + apply nodes_wf_insert; [done|]. split; simpl.
      * rewrite !length_app. simpl. lia.
      * intros d v c Hd. discriminate.
      * discriminate.
    + intros n. rewrite list_lookup_insert_eq by done. intros [= <-] _.
      simpl. rewrite length_app. simpl. lia.
  - split; simpl; [done|done|done|]. intros n Hn' _. simplify_eq.
    apply lookup_lt_Some in Hw. lia.
  - apply lookup_lt_Some in Hw. apply lookup_lt_Some in Hv.
    split; simpl; unfold split_store.
    + rewrite length_app, length_insert. simpl. lia.
    + rewrite length_app, length_insert. simpl. lia.
    + apply nodes_wf_update; [done| |].
      * split; simpl.
        -- rewrite !length_take_le by lia. done.
        -- intros d v c [= <-] Hv'.
           apply lookup_insert_Some in Hv' as [[_ <-]|[_ Hv']]; [lia|].
           apply lookup_singleton_Some in Hv' as [_ <-]. lia.
        -- discriminate.
      * apply Forall_cons. split; [|apply Forall_cons; split; [apply node_wf_new|constructor]].
        split; simpl.
        -- rewrite !length_drop. destruct (transition node); lia.
        -- intros d v c Hd Hv'. specialize (Hclosed d v c Hd Hv'). lia.
        -- done.
    + intros n Hn' _.
      rewrite lookup_app_r in Hn' by (rewrite length_insert; lia).
      rewrite length_insert in Hn'.
      replace (S (length (heap s)) - length (heap s)) with 1 in Hn' by lia.
      simpl in Hn'. simplify_eq. simpl. lia.
  - split; simpl; [done| |done|intros; lia].
    exact (Hclosed d value child Ht Hd).
  - split; simpl.
    + rewrite length_app, length_insert. simpl. lia.
    + rewrite length_app, length_insert. simpl. lia.
    + apply nodes_wf_update; [done| |].
      * split; simpl.
        -- by rewrite Ht in Hshape.
        -- intros d' v c [= <-] Hv'.
           apply lookup_insert_Some in Hv' as [[_ <-]|[_ Hv']]; [lia|].
           specialize (Hclosed d v c Ht Hv'). lia.
        -- discriminate.
      * apply Forall_cons. split; [apply node_wf_new|constructor].
    + intros; lia.
Qed.

Lemma wf_call (c : Call) (s : State) : wf s → wf (call c s).2.
Proof.
  destruct c; simpl.
  - apply wf_new_observer.
  - apply wf_draw_bits.
  - apply wf_conclude_test.
Qed.

Lemma reachable_wf (s : State) : reachable s → wf s.
Proof.
  induction 1 as [cap|c s _ IH]; [apply wf_init|by apply wf_call].
Qed.

Lemma reachable_draw_all (ds : list (Z * bool * Z)) :
  ∀ s, reachable s → reachable (draw_all ds s).2.
Proof.
  induction ds as [|[[n_bits forced] value] ds IH]; intros s Hs;
    cbn [draw_all]; [done|].
  pose proof (reachable_call (DrawBits n_bits forced value) s Hs) as H1.
  simpl in H1.
  destruct (draw_bits n_bits forced value s) as [[| |] s1]; simpl in *;
    [by apply IH|done|done].
Qed.

Lemma reachable_run_trial (ds : list (Z * bool * Z)) (status : Status)
    (origin : option Z) (s : State) :
  reachable s → reachable (run_trial ds status origin s).2.
Proof.
  intros Hs. unfold run_trial.
  pose proof (reachable_draw_all ds _ (reachable_call NewObserver s Hs)) as H1.
  simpl in H1.
  destruct (draw_all ds (new_observer s)) as [[| |] s1]; simpl in *;
    [|done|done].
  exact (reachable_call (ConcludeTest status origin) s1 H1).
Qed.

(** The tree of the example: the root branches on 3 and 5, both children
    carry VALID. *)
Example trial_C_splits_root :
  heap after_C =
    [ {| bits := [8%Z]; values := [];
         transition := Branch (<[5%Z := 2]> {[ 3%Z := 1 ]}) |};
      {| bits := []; values := []; transition := Terminal VALID |};
      {| bits := []; values := []; transition := Terminal VALID |} ].
Proof. vm_compute. reflexivity. Qed.

Lemma reachable_after_A : reachable after_A.
Proof. apply reachable_run_trial, reachable_init. Qed.

Lemma reachable_after_C : reachable after_C.
Proof. apply reachable_run_trial, reachable_after_A. Qed.

(** No call made in a reachable state follows an unallocated address. *)
Lemma reachable_not_stuck (c : Call) (s : State) :
  reachable s → (call c s).1 ≠ Stuck.
Proof.
  intros Hs. pose proof (reachable_wf s Hs) as Hwf.
  destruct (wf_current_node s Hwf) as [node Hnode].
  destruct c as [|n_bits forced value|status origin]; simpl; [done| |].
  - by destruct (draw_bits_cases n_bits forced value s node Hwf Hnode).
  - unfold conclude_test. destruct (decide _); [done|]. rewrite Hnode.
    destruct (decide _); [done|].
    destruct (transition node); [done|done|by destruct (decide _)].
Qed.

(** ** Invariants of the reachable states *)

(** C8, as the code has it: in every reachable state every node has as many
    widths as values or one more; a node that carries a status has as many;
    a node that carries a dict has exactly one more, the width of the draw
    it branches on. *)
Theorem node_lengths (s : State) (a : nat) (n : TreeNode) :
  reachable s →
  heap s !! a = Some n →
  length (values n) ≤ length (bits n) ≤ length (values n) + 1
  ∧ (∀ st, transition n = Terminal st → length (values n) = length (bits n))
  ∧ (∀ d, transition n = Branch d → length (bits n) = length (values n) + 1).
Proof.
  intros Hs Hn.
  destruct (wf_node s a n (reachable_wf s Hs) Hn) as [Hshape _ _].
  destruct (transition n) as [|d|st]; (split; [lia|]);
    (split; [intros ? [=]|intros ? [=]]); lia.
Qed.

(** C8, on the root of the tree that holds trials A and C. *)
Lemma node_lengths_witness :
  length (@nil Z) ≤ length [8%Z] ≤ length (@nil Z) + 1
  ∧ (∀ st, Branch (<[5%Z := 2]> {[ 3%Z := 1 ]}) = Terminal st →
           length (@nil Z) = length [8%Z])
  ∧ (∀ d, Branch (<[5%Z := 2]> {[ 3%Z := 1 ]}) = Branch d →
          length [8%Z] = length (@nil Z) + 1).
Proof.
  apply (node_lengths after_C 0
           {| bits := [8%Z]; values := [];
              transition := Branch (<[5%Z := 2]> {[ 3%Z := 1 ]}) |}).
  - exact reachable_after_C.
  - vm_compute. reflexivity.
Defined.

(** C8 as stated fails: after trials A and C the root carries a dict and
    has one width and no value. *)
Lemma branch_node_has_one_more_width :
  ¬ (∀ (s : State) (a : nat) (n : TreeNode),
       reachable s →
       heap s !! a = Some n →
       length (values n) ≤ length (bits n) ≤ length (values n) + 1
       ∧ ((∃ d, transition n = Branch d) ∨ (∃ st, transition n = Terminal st) →
          length (values n) = length (bits n))).
Proof.
  intros Hclaim.
  destruct (Hclaim after_C 0
              {| bits := [8%Z]; values := [];
                 transition := Branch (<[5%Z := 2]> {[ 3%Z := 1 ]}) |}
              reachable_after_C) as [_ Hclosed].
  - vm_compute. reflexivity.
  - simpl in Hclosed. discriminate Hclosed. left. by eexists.
Qed.

(** C10: in every reachable state no node carries [Status.OVERRUN]. *)
Theorem overrun_never_recorded (s : State) (a : nat) (n : TreeNode) :
  reachable s →
  heap s !! a = Some n →
  transition n ≠ Terminal OVERRUN.
Proof.
  intros Hs Hn. by destruct (wf_node s a n (reachable_wf s Hs) Hn).
Qed.

(** C10, on the tree after an OVERRUN and a VALID conclusion of one draw. *)
Lemma overrun_never_recorded_witness :
  Terminal VALID ≠ Terminal OVERRUN.
Proof.
  apply (overrun_never_recorded
           (run_trial [(8%Z, false, 3%Z)] VALID None
              (run_trial [(8%Z, false, 3%Z)] OVERRUN None (DataTree_init 0)).2).2
           0
           {| bits := [8%Z]; values := [3%Z]; transition := Terminal VALID |}).
  - apply reachable_run_trial, reachable_run_trial, reachable_init.
  - reflexivity.
Defined.

(** A draw past the run of a node that carries a status fails the
    assertion [node.transition is None]; the handler that raises [Flaky]
    for a status is not reached. *)
Lemma draw_bits_past_conclusion (n_bits : Z) (forced : bool) (value : Z)
    (s : State) (node : TreeNode) (st : Status) :
  reachable s →
  heap s !! current_node s = Some node →
  transition node = Terminal st →
  length (values node) ≤ index_in_current_node s →
  draw_bits n_bits forced value s
    = (Raised AssertionError, set_index (S (index_in_current_node s)) s).
Proof.
  intros Hs Hnode Ht Hi.
  pose proof (reachable_wf s Hs) as Hwf.
  pose proof (wf_node s _ _ Hwf Hnode) as [Hshape _ _].
  rewrite Ht in Hshape.
  unfold draw_bits. simpl. rewrite Hnode.
  rewrite decide_False by lia. by rewrite Ht.
Qed.

(** C7: trial A draws [(8, false, 3)] and concludes VALID; a second trial
    makes the same draw and then draws [(4, false, 1)].  The second draw
    raises [AssertionError], not [Flaky], and the tree is as trial A left
    it. *)
Theorem draw_bits_after_conclusion :
  heap after_A
    = [ {| bits := [8%Z]; values := [3%Z]; transition := Terminal VALID |} ]
  ∧ draw_bits 8 false 3 (new_observer after_A)
    = (Returned, set_index 1 (new_observer after_A))
  ∧ (draw_bits 4 false 1 (set_index 1 (new_observer after_A))).1
    = Raised AssertionError
  ∧ heap (draw_bits 4 false 1 (set_index 1 (new_observer after_A))).2
    = heap after_A.
Proof. by vm_compute. Qed.

(** ** The store is a forest *)

Lemma ranked_conclude_test (pos : nat → nat) (status : Status)
    (origin : option Z) (s : State) :
  ranked pos (heap s) → ranked pos (heap (conclude_test status origin s).2).
Proof.
  intros Hr. unfold conclude_test.
  destruct (decide (status = OVERRUN)) as [|Hst]; [done|].
  destruct (heap s !! current_node s) as [node|] eqn:Hnode; [|done].
  destruct (decide _) as [|Hlate]; [done|].
  destruct (transition node) as [|d|st] eqn:Ht; [|done|by destruct (decide _)].
  simpl. intros a n d v c Hn Hd Hv.
  destruct (decide (a = current_node s)) as [->|Hne].
  - rewrite list_lookup_insert_eq in Hn by (by eapply lookup_lt_Some).
    simplify_eq.
  - rewrite list_lookup_insert_ne in Hn by done. by eapply Hr.
Qed.

Lemma ranked_draw_bits (pos : nat → nat) (n_bits : Z) (forced : bool)
    (value : Z) (s : State) :
  wf s → ranked pos (heap s) →
  ∃ pos', ranked pos' (heap (draw_bits n_bits forced value s).2).
Proof.
  intros Hwf Hr.
  destruct (wf_current_node s Hwf) as [node Hnode].
  pose proof (draw_bits_cases n_bits forced value s node Hwf Hnode) as Hcase.
  pose proof (wf_node s _ _ Hwf Hnode) as [Hshape Hclosed Hstatus].
  pose proof (lookup_lt_Some _ _ _ Hnode) as Ha.
  pose proof (λ a n, wf_node s a n Hwf) as Hall.
  destruct Hcase as [Hlt Hw | Hge Ht | Hi' Hlen Ht | Hw Hv | key Hw Hv Hne
                    | d child Hi' Hw Ht Hd | d Hi' Hw Ht Hd ];
    try (by exists pos).
  - exists pos. simpl. intros a n d v c Hn Hd Hv.
    destruct (decide (a = current_node s)) as [->|Hne].
    + rewrite list_lookup_insert_eq in Hn by done. simplify_eq.
    + rewrite list_lookup_insert_ne in Hn by done. by eapply Hr.
  - apply lookup_lt_Some in Hw. apply lookup_lt_Some in Hv.
    set (i := index_in_current_node s) in *.
    set (len := length (heap s)) in *.
    exists (λ x, if decide (len ≤ x) then pos (current_node s) + S i else pos x).
    simpl. unfold split_store. intros a n d v c Hn Hd Hv'.
    destruct (decide (a < len)) as [Hlt|Hge].
    + rewrite lookup_app_l in Hn by (by rewrite length_insert).
      rewrite (decide_False (P := len ≤ a)) by lia.
      destruct (decide (a = current_node s)) as [->|Hne'].
      * rewrite list_lookup_insert_eq in Hn by done. simplify_eq. simpl in *.
        simplify_eq. rewrite length_take_le by lia.
        apply lookup_insert_Some in Hv' as [[_ <-]|[_ Hv']].
        -- by rewrite decide_True by lia.
        -- apply lookup_singleton_Some in Hv' as [_ <-].
           by rewrite decide_True by lia.
      * rewrite list_lookup_insert_ne in Hn by done.
        destruct (Hall a n Hn) as [_ Hcl _].
        specialize (Hcl d v c Hd Hv'). fold len in Hcl.
        rewrite decide_False by lia. exact (Hr a n d v c Hn Hd Hv').
    + rewrite lookup_app_r in Hn by (rewrite length_insert; lia).
      rewrite length_insert in Hn. fold len in Hn.
      rewrite (decide_True (P := len ≤ a)) by lia.
      destruct (a - len) as [|[|k]] eqn:Hk; simpl in Hn; simplify_eq.
      simpl in *. specialize (Hclosed d v c Hd Hv').
      rewrite decide_False by lia.
      rewrite (Hr _ _ _ _ _ Hnode Hd Hv'). rewrite length_drop. lia.
  - set (len := length (heap s)) in *.
    exists (λ x, if decide (x = len)
                 then pos (current_node s) + length (bits node) else pos x).
    simpl. intros a n d' v c Hn Hd' Hv'.
    destruct (decide (a < len)) as [Hlt|Hge].
    + rewrite lookup_app_l in Hn by (by rewrite length_insert).
      rewrite (decide_False (P := a = len)) by lia.
      destruct (decide (a = current_node s)) as [->|Hne'].
      * rewrite list_lookup_insert_eq in Hn by done. simplify_eq. simpl in *.
        simplify_eq.
        apply lookup_insert_Some in Hv' as [[_ <-]|[_ Hv']].
        -- by rewrite decide_True by lia.
        -- specialize (Hclosed d v c Ht Hv').
           rewrite decide_False by lia. exact (Hr _ _ d v c Hnode Ht Hv').
      * rewrite list_lookup_insert_ne in Hn by done.
        destruct (Hall a n Hn) as [_ Hcl _].
        specialize (Hcl d' v c Hd' Hv'). fold len in Hcl.
        rewrite decide_False by lia. exact (Hr a n d' v c Hn Hd' Hv').
    + rewrite lookup_app_r in Hn by (rewrite length_insert; lia).
      rewrite length_insert in Hn. fold len in Hn.
      destruct (a - len) as [|k] eqn:Hk; simpl in Hn; simplify_eq.
Qed.

Lemma reachable_ranked (s : State) :
  reachable s → ∃ pos, ranked pos (heap s).
Proof.
  induction 1 as [cap|c s Hreach [pos IH]].
  - exists (λ _, 0). intros a n d v c Hn Hd Hv.
    destruct a; simpl in Hn; simplify_eq.
  - destruct c; simpl.
    + by exists pos.
    + apply (ranked_draw_bits pos); [by apply reachable_wf|done].
    + exists pos. by apply ranked_conclude_test.
Qed.

(** ** Read-only replay *)

Lemma walk_step_Some (h : list TreeNode) (a i : nat) (n_bits : Z)
    (forced : bool) (value : Z) (p : nat * nat) :
  walk_step h a i (n_bits, forced, value) = Some p ↔
  ∃ node,
    h !! a = Some node ∧ bits node !! i = Some n_bits ∧
    ((values node !! i = Some value ∧ p = (a, S i))
     ∨ (length (values node) ≤ i ∧
        ∃ d c, transition node = Branch d ∧ d !! value = Some c ∧ p = (c, 0))).
Proof.
  unfold walk_step. split.
  - destruct (h !! a) as [node|]; [|done].
    destruct (decide (bits node !! i = Some n_bits)) as [Hw|]; [|done].
    destruct (decide (i < length (values node))) as [Hi|Hi].
    + destruct (decide (values node !! i = Some value)); [|done].
      intros [= <-]. exists node. split; [done|]. split; [done|]. by left.
    + destruct (transition node) as [|d|st] eqn:Ht; [done| |done].
      destruct (d !! value) as [c|] eqn:Hc; [|done].
      intros [= <-]. exists node. split; [done|]. split; [done|].
      right. split; [lia|]. exists d, c. by split_and!.
  - intros (node & -> & Hw & [[Hv ->]|(Hi & d & c & Ht & Hc & ->)]).
    + pose proof (lookup_lt_Some _ _ _ Hv).
      by rewrite !decide_True by done.
    + rewrite decide_True by done. rewrite decide_False by lia.
      by rewrite Ht, Hc.
Qed.

Lemma walk_snoc (h : list TreeNode) (ds : list (Z * bool * Z)) (d : Z * bool * Z) :
  ∀ a i,
    walk h a i (ds ++ [d]) =
      match walk h a i ds with
      | Some (a', i') => walk_step h a' i' d
      | None => None
      end.
Proof.
  induction ds as [|d0 ds IH]; intros a i; simpl.
  - by destruct (walk_step h a i d) as [[a' i']|].
  - destruct (walk_step h a i d0) as [[a' i']|]; [apply IH|done].
Qed.

Lemma walk_step_depth (pos : nat → nat) (h : list TreeNode) (a i : nat)
    (d : Z * bool * Z) (a' i' : nat) :
  ranked pos h → Forall (node_wf (length h)) h →
  walk_step h a i d = Some (a', i') →
  pos a' + i' = S (pos a + i).
Proof.
  intros Hr Hwf. destruct d as [[n_bits forced] value]. unfold walk_step.
  destruct (h !! a) as [node|] eqn:Hnode; [|done].
  destruct (decide (bits node !! i = Some n_bits)) as [Hw|]; [|done].
  destruct (decide (i < length (values node))) as [Hv|Hv].
  - destruct (decide _); [|done]. intros [= <- <-]. lia.
  - destruct (transition node) as [|dict|st] eqn:Ht; [done| |done].
    destruct (dict !! value) as [child|] eqn:Hd; [|done].
    intros [= <- <-].
    destruct (proj1 (Forall_lookup _ _) Hwf a node Hnode) as [Hshape _ _].
    rewrite Ht in Hshape. apply lookup_lt_Some in Hw.
    rewrite (Hr a node dict value child Hnode Ht Hd). lia.
Qed.

Lemma walk_depth (pos : nat → nat) (h : list TreeNode)
    (ds : list (Z * bool * Z)) :
  ranked pos h → Forall (node_wf (length h)) h →
  ∀ a i a' i',
    walk h a i ds = Some (a', i') →
    pos a' + i' = pos a + i + length ds.
Proof.
  intros Hr Hwf. induction ds as [|d ds IH]; intros a i a' i'; simpl.
  - intros [= <- <-]. lia.
  - destruct (walk_step h a i d) as [[a1 i1]|] eqn:Hstep; [|done].
    intros Hwalk. apply IH in Hwalk.
    apply (walk_step_depth pos) in Hstep; [lia|done|done].
Qed.

(** A mutation of node [m] that keeps its first [j] widths and values, and
    leaves the other nodes alone, keeps every replay that ends at position
    [j] of [m]. *)
Lemma walk_frame (pos : nat → nat) (h h' : list TreeNode) (m j : nat)
    (nm nm' : TreeNode) (ds : list (Z * bool * Z)) :
  ranked pos h → Forall (node_wf (length h)) h →
  h !! m = Some nm → h' !! m = Some nm' →
  j ≤ length (values nm) →
  j ≤ length (values nm') →
  take j (bits nm') = take j (bits nm) →
  take j (values nm') = take j (values nm) →
  (∀ x, x ≠ m → x < length h → h' !! x = h !! x) →
  ∀ a i, walk h a i ds = Some (m, j) → walk h' a i ds = Some (m, j).
Proof.
  intros Hr Hwf Hm Hm' Hj Hj' Hbits Hvalues Hother.
  induction ds as [|d ds IH]; intros a i; simpl; [done|].
  destruct (walk_step h a i d) as [[a1 i1]|] eqn:Hstep; [|done].
  intros Hwalk.
  pose proof (walk_depth pos h ds Hr Hwf _ _ _ _ Hwalk) as Hdepth.
  pose proof (walk_step_depth pos h _ _ _ _ _ Hr Hwf Hstep) as Hdepth1.
  enough (walk_step h' a i d = Some (a1, i1)) as -> by by apply IH.
  destruct d as [[n_bits forced] value]. unfold walk_step in *.
  destruct (h !! a) as [node|] eqn:Hnode; [|done].
  destruct (decide (a = m)) as [->|Hne].
  - simplify_eq. rewrite Hm'.
    destruct (decide (bits nm !! i = Some n_bits)) as [Hw|]; [|done].
    destruct (decide (i < length (values nm))) as [Hv|Hv].
    + destruct (decide (values nm !! i = Some value)) as [Hval|]; [|done].
      simplify_eq.
      assert (i < j) as Hij by lia.
      assert (bits nm' !! i = Some n_bits) as Hw'.
      { rewrite <- (lookup_take_lt (bits nm') j i Hij), Hbits.
        by rewrite lookup_take_lt. }
      assert (values nm' !! i = Some value) as Hval'.
      { rewrite <- (lookup_take_lt (values nm') j i Hij), Hvalues.
        by rewrite lookup_take_lt. }
      rewrite decide_True by done.
      rewrite decide_True by lia.
      by rewrite decide_True by done.
    + destruct (transition nm) as [|dict|st] eqn:Ht; [done| |done].
      destruct (dict !! value) as [child|] eqn:Hd; [|done].
      simplify_eq.
      destruct (proj1 (Forall_lookup _ _) Hwf m nm Hm) as [Hshape _ _].
      rewrite Ht in Hshape. apply lookup_lt_Some in Hw. lia.
  - rewrite Hother, Hnode; [done|done|by eapply lookup_lt_Some].
Qed.

Lemma draw_bits_walk_step (n_bits : Z) (forced : bool) (value : Z)
    (s : State) (a' i' : nat) :
  walk_step (heap s) (current_node s) (index_in_current_node s)
    (n_bits, forced, value) = Some (a', i') →
  draw_bits n_bits forced value s = (Returned, set_current a' i' s).
Proof.
  destruct s as [h t a i]; simpl. unfold walk_step, draw_bits; simpl.
  destruct (h !! a) as [node|] eqn:Hnode; [|done].
  destruct (decide (bits node !! i = Some n_bits)) as [Hw|]; [|done].
  pose proof (lookup_lt_Some _ _ _ Hw) as Hlt.
  rewrite (decide_True (P := i < length (bits node))) by done.
  rewrite Hw.
  rewrite (decide_False (P := Some n_bits ≠ Some n_bits))
    by (intros Hn; by apply Hn).
  simpl.
  rewrite (decide_False (P := ¬ i < length (bits node)))
    by (intros Hn; by apply Hn).
  destruct (decide (i < length (values node))) as [Hv|Hv].
  - destruct (decide (values node !! i = Some value)) as [Hval|]; [|done].
    intros [= <- <-]. rewrite Hval.
    by rewrite decide_False by (intros Hn; by apply Hn).
  - destruct (transition node) as [|dict|st] eqn:Ht; [done| |done].
    destruct (dict !! value) as [child|] eqn:Hd; [|done].
    by intros [= <- <-].
Qed.

Lemma draw_all_walk (ds : list (Z * bool * Z)) :
  ∀ (s : State) (a' i' : nat),
    walk (heap s) (current_node s) (index_in_current_node s) ds = Some (a', i') →
    draw_all ds s = (Returned, set_current a' i' s).
Proof.
  induction ds as [|[[n_bits forced] value] ds IH]; intros s a' i';
    cbn [walk draw_all].
  - intros [= <- <-]. by destruct s.
  - destruct (walk_step (heap s) (current_node s) (index_in_current_node s)
                (n_bits, forced, value)) as [[a1 i1]|] eqn:Hstep; [|done].
    intros Hwalk. rewrite (draw_bits_walk_step _ _ _ _ _ _ Hstep).
    by rewrite (IH (set_current a1 i1 s) a' i').
Qed.

(** ** What a trial records *)

Lemma recorded_new_observer (s : State) : recorded [] (new_observer s).
Proof. split; simpl; [done|intros; lia]. Qed.

Lemma draw_bits_recorded (pos : nat → nat) (n_bits : Z) (forced : bool)
    (value : Z) (ds : list (Z * bool * Z)) (s s' : State) :
  wf s → ranked pos (heap s) → recorded ds s →
  draw_bits n_bits forced value s = (Returned, s') →
  recorded (ds ++ [(n_bits, forced, value)]) s'.
Proof.
  intros Hwf Hr [Hwalk Hwithin] Hdraw.
  destruct (wf_current_node s Hwf) as [node Hnode].
  pose proof (draw_bits_cases n_bits forced value s node Hwf Hnode) as Hcase.
  rewrite Hdraw in Hcase. simpl in Hcase.
  pose proof (lookup_lt_Some _ _ _ Hnode) as Ha.
  specialize (Hwithin node Hnode).
  pose proof (wf_nodes s Hwf) as Hnodes.
  unfold recorded. rewrite walk_snoc.
  inversion Hcase as [ | | Hi' Hlen Ht | Hw Hv | key Hw Hv Hne
                     | d child Hi' Hw Ht Hd | d Hi' Hw Ht Hd ];
    subst; simpl.
  - (* the run grows *)
    set (node' := {| bits := bits node ++ [n_bits];
                     values := values node ++ [value];
                     transition := Live |}).
    assert (<[current_node s := node']> (heap s) !! current_node s = Some node')
      as Hnode' by by apply list_lookup_insert_eq.
    rewrite (walk_frame pos (heap s) _ (current_node s)
               (index_in_current_node s) node node' ds Hr Hnodes Hnode Hnode').
    + unfold walk_step. rewrite Hnode'. simpl.
      rewrite Hi'. rewrite list_lookup_middle by done.
      rewrite decide_True by done.
      rewrite length_app; simpl.
      rewrite decide_True by lia.
      rewrite <- Hlen. rewrite list_lookup_middle by done.
      rewrite decide_True by done.
      split; [done|]. intros n [= <-]. simpl. rewrite length_app; simpl. lia.
    + done.
    + simpl. rewrite length_app. lia.
    + simpl. rewrite take_app_le by lia. done.
    + simpl. rewrite take_app_le by lia. done.
    + intros x Hx _. by rewrite list_lookup_insert_ne.
    + done.
  - (* the draw is the recorded one *)
    rewrite Hwalk. unfold walk_step. rewrite Hnode.
    pose proof (lookup_lt_Some _ _ _ Hv) as Hlt.
    rewrite decide_True by done. rewrite decide_True by done.
    rewrite decide_True by done.
    split; [done|]. intros n Hn. simplify_eq. lia.
  - (* the run splits *)
    pose proof (lookup_lt_Some _ _ _ Hv) as Hlt.
    pose proof (lookup_lt_Some _ _ _ Hw) as Hltb.
    unfold split_store.
    match goal with
    | |- context [ <[current_node s := ?n]> (heap s) ] => set (node' := n)
    end.
    match goal with
    | |- context [ <[current_node s := node']> (heap s) ++ ?e ] => set (extra := e)
    end.
    assert ((<[current_node s := node']> (heap s) ++ extra) !! current_node s
            = Some node') as Hnode'.
    { rewrite lookup_app_l by (by rewrite length_insert).
      by apply list_lookup_insert_eq. }
    rewrite (walk_frame pos (heap s) _ (current_node s)
               (index_in_current_node s) node node' ds Hr Hnodes Hnode Hnode').
    + unfold walk_step. rewrite Hnode'. simpl.
      rewrite lookup_take_lt by lia. rewrite Hw.
      rewrite decide_True by done.
      rewrite length_take_le by lia.
      rewrite decide_False by lia.
      rewrite lookup_insert_eq.
      split; [done|]. intros; lia.
    + done.
    + simpl. rewrite length_take_le by lia. done.
    + simpl. rewrite take_take. f_equal. lia.
    + simpl. rewrite take_take. f_equal. lia.
    + intros x Hx Hxl. rewrite lookup_app_l by (by rewrite length_insert).
      by rewrite list_lookup_insert_ne.
    + done.
  - (* an existing branch is followed *)
    rewrite Hwalk. unfold walk_step. rewrite Hnode.
    rewrite decide_True by done. rewrite decide_False by lia.
    rewrite Ht, Hd. split; [done|]. intros; lia.
  - (* a branch is added *)
    match goal with
    | |- context [ <[current_node s := ?n]> (heap s) ] => set (node' := n)
    end.
    assert ((<[current_node s := node']> (heap s) ++ [TreeNode_new])
              !! current_node s = Some node') as Hnode'.
    { rewrite lookup_app_l by (by rewrite length_insert).
      by apply list_lookup_insert_eq. }
    rewrite (walk_frame pos (heap s) _ (current_node s)
               (index_in_current_node s) node node' ds Hr Hnodes Hnode Hnode').
    + unfold walk_step. rewrite Hnode'. simpl.
      rewrite decide_True by done. rewrite decide_False by lia.
      rewrite lookup_insert_eq.
      split; [done|]. intros; lia.
    + done.
    + done.
    + done.
    + done.
    + intros x Hx Hxl. rewrite lookup_app_l by (by rewrite length_insert).
      by rewrite list_lookup_insert_ne.
    + done.
Qed.

Lemma draw_all_recorded (ds : list (Z * bool * Z)) :
  ∀ (done : list (Z * bool * Z)) (s s' : State),
    wf s → (∃ pos, ranked pos (heap s)) → recorded done s →
    draw_all ds s = (Returned, s') →
    wf s' ∧ (∃ pos, ranked pos (heap s')) ∧ recorded (done ++ ds) s'.
Proof.
  induction ds as [|[[n_bits forced] value] ds IH]; intros done s s' Hwf Hr Hrec;
    cbn [draw_all].
  - intros [= <-]. by rewrite app_nil_r.
  - destruct (draw_bits n_bits forced value s) as [o s1] eqn:Hdraw.
    destruct Hr as [pos Hr].
    destruct o; [|done|done]. intros Hrest.
    pose proof (wf_draw_bits n_bits forced value s Hwf) as Hwf1.
    pose proof (ranked_draw_bits pos n_bits forced value s Hwf Hr) as Hr1.
    rewrite Hdraw in Hwf1, Hr1. simpl in Hwf1, Hr1.
    pose proof (draw_bits_recorded pos _ _ _ done s s1 Hwf Hr Hrec Hdraw) as Hrec1.
    destruct (IH _ s1 s' Hwf1 Hr1 Hrec1 Hrest) as (Hwf' & Hr' & Hrec').
    by rewrite <- (assoc_L (++)) in Hrec'.
Qed.

Lemma conclude_test_recorded (pos : nat → nat) (status : Status)
    (origin : option Z) (ds : list (Z * bool * Z)) (s s' : State) :
  wf s → ranked pos (heap s) → status ≠ OVERRUN → recorded ds s →
  conclude_test status origin s = (Returned, s') →
  holds (heap s') (root (tree s')) ds status.
Proof.
  intros Hwf Hr Hst [Hwalk Hwithin]. unfold conclude_test.
  rewrite decide_False by done.
  destruct (wf_current_node s Hwf) as [node Hnode]. rewrite Hnode.
  specialize (Hwithin node Hnode).
  destruct (decide _) as [|Hlate]; [done|].
  assert (length (values node) ≤ index_in_current_node s) as Hend.
  { apply Nat.nlt_ge. intros ?. apply Hlate. by left. }
  pose proof (lookup_lt_Some _ _ _ Hnode) as Ha.
  exists (current_node s), (index_in_current_node s).
  destruct (transition node) as [|d|st] eqn:Ht; [|done|].
  - simplify_eq. simpl.
    set (node' := set_transition (Terminal status) node).
    assert (<[current_node s := node']> (heap s) !! current_node s = Some node')
      as Hnode' by by apply list_lookup_insert_eq.
    split; [|by exists node'].
    apply (walk_frame pos (heap s) _ (current_node s)
             (index_in_current_node s) node node' ds Hr (wf_nodes s Hwf)
             Hnode Hnode'); [done|done|done|done| |done].
    intros x Hx _. by rewrite list_lookup_insert_ne.
  - destruct (decide (st ≠ status)) as [|Heq]; [done|].
    apply dec_stable in Heq. simplify_eq.
    split; [done|]. by exists node.
Qed.

(** ** Recorded trials persist *)

Lemma walk_mono (h h' : list TreeNode) (ds : list (Z * bool * Z)) :
  (∀ a i d p, walk_step h a i d = Some p → walk_step h' a i d = Some p) →
  ∀ a i p, walk h a i ds = Some p → walk h' a i ds = Some p.
Proof.
  intros Hstep. induction ds as [|d ds IH]; intros a i p; cbn [walk]; [done|].
  destruct (walk_step h a i d) as [[a1 i1]|] eqn:Hs; [|done].
  rewrite (Hstep _ _ _ _ Hs). apply IH.
Qed.

Lemma holds_mono (h h' : list TreeNode) (r : nat) (ds : list (Z * bool * Z))
    (st : Status) :
  (∀ a i d p, walk_step h a i d = Some p → walk_step h' a i d = Some p) →
  (∀ a i, concluded_at h a i st → concluded_at h' a i st) →
  holds h r ds st → holds h' r ds st.
Proof.
  intros Hstep Hend (a & i & Hwalk & Hc). exists a, i.
  split; [by apply (walk_mono h h' ds Hstep)|by apply Hend].
Qed.

(** A step that is possible stays possible when the node it starts from
    only gains widths, values or dict entries. *)
Lemma walk_step_grow (h : list TreeNode) (c : nat) (node node' : TreeNode)
    (extra : list TreeNode) :
  h !! c = Some node →
  (∀ i w, bits node !! i = Some w → bits node' !! i = Some w) →
  (∀ i v, values node !! i = Some v → values node' !! i = Some v) →
  (length (values node) < length (values node') → transition node = Live) →
  (∀ d v a, transition node = Branch d → d !! v = Some a →
            ∃ d', transition node' = Branch d' ∧ d' !! v = Some a) →
  ∀ a i d p,
    walk_step h a i d = Some p →
    walk_step (<[c := node']> h ++ extra) a i d = Some p.
Proof.
  intros Hc Hb Hv Hlen Hd a i [[n_bits forced] value] p. unfold walk_step.
  destruct (h !! a) as [n|] eqn:Hn; [|done].
  pose proof (lookup_lt_Some _ _ _ Hn) as Ha.
  rewrite lookup_app_l by (by rewrite length_insert).
  destruct (decide (a = c)) as [->|Hne]; cycle 1.
  { by rewrite list_lookup_insert_ne, Hn by done. }
  rewrite list_lookup_insert_eq by done. simplify_eq.
  destruct (decide (bits node !! i = Some n_bits)) as [Hw|]; [|done].
  rewrite (decide_True (P := bits node' !! i = Some n_bits)) by by apply Hb.
  destruct (decide (i < length (values node))) as [Hi|Hi].
  - destruct (decide (values node !! i = Some value)) as [Hval|]; [|done].
    pose proof (Hv _ _ Hval) as Hval'.
    pose proof (lookup_lt_Some _ _ _ Hval') as Hi'.
    rewrite (decide_True (P := i < length (values node'))) by done.
    by rewrite decide_True.
  - destruct (transition node) as [|dict|st] eqn:Ht; [done| |done].
    destruct (dict !! value) as [child|] eqn:Hchild; [|done].
    destruct (Hd dict value child eq_refl Hchild) as (d' & Ht' & Hchild').
    intros [= <-].
    rewrite decide_False; [by rewrite Ht', Hchild'|].
    intros Hi'. enough (Branch dict = Live) by done. apply Hlen. lia.
Qed.

Lemma concluded_at_grow (h : list TreeNode) (c : nat) (node node' : TreeNode)
    (extra : list TreeNode) (a i : nat) (st : Status) :
  h !! c = Some node →
  (∀ st', transition node ≠ Terminal st') →
  concluded_at h a i st →
  concluded_at (<[c := node']> h ++ extra) a i st.
Proof.
  intros Hc Hlive (n & Hn & Hi & Ht).
  pose proof (lookup_lt_Some _ _ _ Hn) as Ha.
  exists n. split; [|done].
  rewrite lookup_app_l by (by rewrite length_insert).
  rewrite list_lookup_insert_ne; [done|].
  intros <-. simplify_eq. by eapply Hlive.
Qed.

Section split.

(** The simulation of the old store by the store [draw_bits] leaves when it
    splits [node]. *)
Variables (h : list TreeNode) (cur i0 : nat) (node : TreeNode).
Variables (key value : Z).
Hypothesis Hcur : h !! cur = Some node.
Hypothesis Hkey : values node !! i0 = Some key.
Hypothesis Hwidth : i0 < length (bits node).
Hypothesis Hne : key ≠ value.

Lemma split_store_cur :
  (split_store h cur i0 node key value) !! cur =
    Some {| bits := take (S i0) (bits node);
            values := take i0 (values node);
            transition :=
              Branch (<[value := S (length h)]> {[ key := length h ]}) |}.
Proof.
  pose proof (lookup_lt_Some _ _ _ Hcur) as Ha. unfold split_store.
  rewrite lookup_app_l by (by rewrite length_insert).
  by rewrite list_lookup_insert_eq.
Qed.

Lemma split_store_child :
  (split_store h cur i0 node key value) !! length h =
    Some {| bits := drop (S i0) (bits node);
            values := drop (S i0) (values node);
            transition := transition node |}.
Proof.
  unfold split_store.
  rewrite lookup_app_r by (rewrite length_insert; lia).
  by rewrite length_insert, Nat.sub_diag.
Qed.

Lemma split_store_other (a : nat) (n : TreeNode) :
  a ≠ cur → h !! a = Some n → (split_store h cur i0 node key value) !! a = Some n.
Proof.
  intros Ha Hn. pose proof (lookup_lt_Some _ _ _ Hn) as Hlt.
  unfold split_store.
  rewrite lookup_app_l by (by rewrite length_insert).
  by rewrite list_lookup_insert_ne.
Qed.

Lemma walk_step_split (a k : nat) (d : Z * bool * Z) (p : nat * nat) :
  walk_step h a k d = Some p →
  walk_step (split_store h cur i0 node key value) (moved cur i0 (length h) (a, k)).1
    (moved cur i0 (length h) (a, k)).2 d
  = Some (moved cur i0 (length h) p).
Proof.
  pose proof (lookup_lt_Some _ _ _ Hkey) as Hi0.
  destruct d as [[n_bits forced] v].
  intros (n & Hn & Hw & Hstep)%walk_step_Some.
  apply walk_step_Some. unfold moved. cbn [fst snd].
  destruct (decide (a = cur)) as [->|Hacur]; cycle 1.
  { rewrite (decide_False (P := a = cur ∧ i0 < k)) by (intros [? _]; done).
    exists n. split; [by apply split_store_other|]. split; [done|].
    destruct Hstep as [[Hv ->]|(Hk & dict & c & Ht & Hc & ->)]; cbn [fst snd].
    - left. by rewrite decide_False by (intros [? _]; done).
    - right. split; [done|]. exists dict, c.
      rewrite decide_False by (intros [_ ?]; lia). by split_and!. }
  simplify_eq.
  destruct (decide (cur = cur ∧ i0 < k)) as [[_ Hk]|Hk]; cbn [fst snd].
  - (* the position is in the part of the run that moved to the child *)
    eexists. split; [apply split_store_child|]. cbn [bits values transition].
    rewrite !lookup_drop, length_drop.
    replace (S i0 + (k - S i0)) with k by lia.
    split; [done|].
    destruct Hstep as [[Hv ->]|(Hkv & dict & c & Ht & Hc & ->)]; cbn [fst snd].
    + left. split; [done|]. rewrite decide_True by (split; [done|lia]).
      f_equal. lia.
    + right. split; [lia|]. exists dict, c.
      rewrite decide_False by (intros [_ ?]; lia). by split_and!.
  - assert (k ≤ i0) as Hle by (apply Nat.nlt_ge; intros ?; by apply Hk).
    eexists. split; [apply split_store_cur|]. cbn [bits values transition].
    rewrite lookup_take_lt by lia. split; [done|].
    destruct Hstep as [[Hv Hp]|[Hkv _]]; [|lia].
    subst p. cbn [fst snd].
    destruct (decide (k = i0)) as [->|Hki].
    + simplify_eq. right. rewrite length_take_le by lia. split; [done|].
      eexists _, (length h). split; [done|].
      rewrite lookup_insert_ne by done. rewrite lookup_singleton_eq.
      split; [done|]. rewrite decide_True by (split; [done|lia]).
      f_equal. lia.
    + left. rewrite lookup_take_lt by lia. split; [done|].
      by rewrite decide_False by (intros [_ ?]; lia).
Qed.

Lemma walk_split (ds : list (Z * bool * Z)) :
  ∀ a k p,
    walk h a k ds = Some p →
    walk (split_store h cur i0 node key value) (moved cur i0 (length h) (a, k)).1
      (moved cur i0 (length h) (a, k)).2 ds
    = Some (moved cur i0 (length h) p).
Proof.
  induction ds as [|d ds IH]; intros a k p; cbn [walk].
  - intros [= <-]. by destruct (moved cur i0 (length h) (a, k)).
  - destruct (walk_step h a k d) as [[a1 k1]|] eqn:Hs; [|done].
    rewrite (walk_step_split _ _ _ _ Hs).
    destruct (moved cur i0 (length h) (a1, k1)) as [a2 k2] eqn:Hm.
    intros Hw. apply IH in Hw. by rewrite Hm in Hw.
Qed.

Lemma concluded_at_split (a k : nat) (st : Status) :
  concluded_at h a k st →
  concluded_at (split_store h cur i0 node key value) (moved cur i0 (length h) (a, k)).1
    (moved cur i0 (length h) (a, k)).2 st.
Proof.
  pose proof (lookup_lt_Some _ _ _ Hkey) as Hi0.
  intros (n & Hn & Hk & Ht). unfold moved. simpl.
  destruct (decide (a = cur)) as [->|Hacur].
  - simplify_eq. rewrite decide_True by (split; [done|lia]). simpl.
    eexists. split; [apply split_store_child|]. simpl.
    rewrite length_drop. split; [lia|done].
  - rewrite decide_False by (intros [? _]; done). simpl.
    exists n. split; [by apply split_store_other|done].
Qed.

Lemma holds_split (r : nat) (ds : list (Z * bool * Z)) (st : Status) :
  holds h r ds st → holds (split_store h cur i0 node key value) r ds st.
Proof.
  intros (a & k & Hwalk & Hc).
  apply walk_split in Hwalk. apply concluded_at_split in Hc.
  unfold moved at 1 2 in Hwalk. simpl in Hwalk.
  rewrite decide_False in Hwalk by (intros [_ ?]; lia). simpl in Hwalk.
  destruct (moved cur i0 (length h) (a, k)) as [a' k'].
  by exists a', k'.
Qed.
End split.


Lemma holds_grow (h : list TreeNode) (c : nat) (node node' : TreeNode)
    (extra : list TreeNode) (r : nat) (ds : list (Z * bool * Z)) (st : Status) :
  h !! c = Some node →
  (∀ i w, bits node !! i = Some w → bits node' !! i = Some w) →
  (∀ i v, values node !! i = Some v → values node' !! i = Some v) →
  (length (values node) < length (values node') → transition node = Live) →
  (∀ d v a, transition node = Branch d → d !! v = Some a →
            ∃ d', transition node' = Branch d' ∧ d' !! v = Some a) →
  (∀ st', transition node ≠ Terminal st') →
  holds h r ds st → holds (<[c := node']> h ++ extra) r ds st.
Proof.
  intros Hc Hb Hv Hlen Hd Hlive. apply holds_mono.
  - by apply (walk_step_grow h c node node' extra).
  - intros a i. by apply (concluded_at_grow h c node node' extra).
Qed.

Lemma holds_draw_bits (n_bits : Z) (forced : bool) (value : Z) (s : State)
    (ds : list (Z * bool * Z)) (st : Status) :
  wf s →
  holds (heap s) (root (tree s)) ds st →
  tree (draw_bits n_bits forced value s).2 = tree s
  ∧ holds (heap (draw_bits n_bits forced value s).2) (root (tree s)) ds st.
Proof.
  intros Hwf Hholds.
  destruct (wf_current_node s Hwf) as [node Hnode].
  destruct (draw_bits_cases n_bits forced value s node Hwf Hnode)
    as [Hlt Hw | Hge Ht | Hi' Hlen Ht | Hw Hv | key Hw Hv Hne
       | d child Hi' Hw Ht Hd | d Hi' Hw Ht Hd ];
    (split; [done|]); simpl; try done.
  - rewrite <- (app_nil_r (<[_ := _]> _)).
    apply (holds_grow (heap s) (current_node s) node); simpl; try done.
    + intros i w. apply lookup_app_l_Some.
    + intros i v. apply lookup_app_l_Some.
    + intros d v a. by rewrite Ht.
    + intros st'. by rewrite Ht.
  - apply (holds_split (heap s) (current_node s) (index_in_current_node s)
             node key value); [done|done| |done|done].
    by eapply lookup_lt_Some.
  - apply (holds_grow (heap s) (current_node s) node); simpl; try done.
    + lia.
    + intros d0 v a. rewrite Ht. intros [= <-] Hv.
      eexists. split; [done|]. rewrite lookup_insert_ne; [done|].
      intros <-. by rewrite Hd in Hv.
    + intros st'. by rewrite Ht.
Qed.

Lemma holds_conclude_test (status : Status) (origin : option Z) (s : State)
    (ds : list (Z * bool * Z)) (st : Status) :
  holds (heap s) (root (tree s)) ds st →
  tree (conclude_test status origin s).2 = tree s
  ∧ holds (heap (conclude_test status origin s).2) (root (tree s)) ds st.
Proof.
  intros Hholds. unfold conclude_test.
  destruct (decide (status = OVERRUN)); [done|].
  destruct (heap s !! current_node s) as [node|] eqn:Hnode; [|done].
  destruct (decide _); [done|].
  destruct (transition node) as [|d|st'] eqn:Ht; [|done|by destruct (decide _)].
  split; [done|]. simpl.
  rewrite <- (app_nil_r (<[_ := _]> _)).
  apply (holds_grow (heap s) (current_node s) node); simpl; try done.
  - intros d v a. by rewrite Ht.
  - intros st'. by rewrite Ht.
Qed.

Lemma holds_calls (cs : list Call) (ds : list (Z * bool * Z)) (st : Status) :
  ∀ s,
    reachable s →
    holds (heap s) (root (tree s)) ds st →
    reachable (calls cs s)
    ∧ holds (heap (calls cs s)) (root (tree (calls cs s))) ds st.
Proof.
  induction cs as [|c cs IH]; intros s Hs Hholds; cbn [calls]; [done|].
  apply IH; [by apply reachable_call|].
  destruct c as [|n_bits forced value|status origin]; simpl.
  - done.
  - destruct (holds_draw_bits n_bits forced value s ds st
                (reachable_wf s Hs) Hholds) as [-> ?]. done.
  - destruct (holds_conclude_test status origin s ds st Hholds) as [-> ?]. done.
Qed.

(** A trial the store holds runs again without touching the store. *)
Lemma holds_replay (ds : list (Z * bool * Z)) (status : Status)
    (origin : option Z) (s : State) :
  status ≠ OVERRUN →
  holds (heap s) (root (tree s)) ds status →
  ∃ a i, run_trial ds status origin s = (Returned, set_current a i s).
Proof.
  intros Hst (a & i & Hwalk & node & Hnode & Hi & Ht). exists a, i.
  unfold run_trial.
  rewrite (draw_all_walk ds (new_observer s) a i) by exact Hwalk.
  unfold conclude_test. rewrite decide_False by done. simpl.
  rewrite Hnode, Ht. rewrite decide_False by (intros [?|?]; [lia|done]).
  rewrite decide_False by (intros Hn; by apply Hn).
  by destruct s.
Qed.

(** C1: when a trial (a fresh observer, the draws [ds], then a conclusion
    other than OVERRUN) has returned in a reachable state, then after any
    further calls [cs] the same trial, run through a new observer, returns
    as well, raising nothing, and leaves the store as it found it: the same
    list of nodes, so no node has changed and none has been allocated. *)
Theorem replay_trial (ds : list (Z * bool * Z)) (status : Status)
    (origin : option Z) (s s1 : State) (cs : list Call) :
  reachable s →
  status ≠ OVERRUN →
  run_trial ds status origin s = (Returned, s1) →
  ∃ s2,
    run_trial ds status origin (calls cs s1) = (Returned, s2)
    ∧ heap s2 = heap (calls cs s1)
    ∧ length (heap s2) = length (heap (calls cs s1)).
Proof.
  intros Hreach Hst Hrun.
  assert (reachable s1) as Hreach1.
  { pose proof (reachable_run_trial ds status origin s Hreach) as H.
    by rewrite Hrun in H. }
  assert (holds (heap s1) (root (tree s1)) ds status) as Hholds.
  { pose proof (reachable_wf s Hreach) as Hwf.
    destruct (reachable_ranked s Hreach) as [pos Hr].
    unfold run_trial in Hrun.
    destruct (draw_all ds (new_observer s)) as [o s0] eqn:Hdraws.
    destruct o; [|done|done].
    destruct (draw_all_recorded ds [] (new_observer s) s0
                (wf_new_observer s Hwf) (ex_intro _ pos Hr)
                (recorded_new_observer s) Hdraws) as (Hwf0 & [pos0 Hr0] & Hrec0).
    exact (conclude_test_recorded pos0 status origin ds s0 s1
             Hwf0 Hr0 Hst Hrec0 Hrun). }
  destruct (holds_calls cs ds status s1 Hreach1 Hholds) as [_ Hholds'].
  destruct (holds_replay ds status origin (calls cs s1) Hst Hholds')
    as (a & i & Hagain).
  exists (set_current a i (calls cs s1)). by rewrite Hagain.
Qed.

(** C1, on a new tree: trial A is recorded, trial C follows, and trial A
    is run again. *)
Lemma replay_trial_witness :
  ∃ s2,
    run_trial [(8%Z, false, 3%Z)] VALID None
      (calls [NewObserver; DrawBits 8 false 5; ConcludeTest VALID None] after_A)
    = (Returned, s2)
    ∧ heap s2
      = heap (calls [NewObserver; DrawBits 8 false 5; ConcludeTest VALID None]
                after_A)
    ∧ length (heap s2)
      = length (heap (calls [NewObserver; DrawBits 8 false 5;
                             ConcludeTest VALID None] after_A)).
Proof.
  apply (replay_trial [(8%Z, false, 3%Z)] VALID None (DataTree_init 0) after_A
           [NewObserver; DrawBits 8 false 5; ConcludeTest VALID None]).
  - apply reachable_init.
  - discriminate.
  - vm_compute. reflexivity.
Defined.

(** ** is_exhausted *)

(** C9: a trial that makes no draw and concludes VALID leaves a tree whose
    only node, the root, carries the status; [is_exhausted] is [False] on
    it. *)
Theorem is_exhausted_terminal_root :
  heap after_empty
    = [ {| bits := []; values := []; transition := Terminal VALID |} ]
  ∧ is_exhausted after_empty = false.
Proof. by vm_compute. Qed.

(** * Further properties *)

(** ** _is_simple_mask *)

Lemma land_succ_pos (p : positive) :
  Z.land (Z.pos p) (Z.pos p + 1) = 0%Z →
  ∃ n : Z, (0 ≤ n)%Z ∧ Z.pos p = (2 ^ n - 1)%Z.
Proof.
  induction p as [q IH|q _|].
  - (* 2q+1 *)
    intros H.
    assert (Z.land (Z.pos q) (Z.pos q + 1) = 0%Z) as Hq.
    { replace (Z.pos q~1 + 1)%Z with (Z.pos (Pos.succ q)~0) in H by lia.
      replace (Z.pos q + 1)%Z with (Z.pos (Pos.succ q)) by lia.
      change (Z.of_N (Pos.Ndouble (Pos.land q (Pos.succ q))) = 0%Z) in H.
      change (Z.of_N (Pos.land q (Pos.succ q)) = 0%Z).
      destruct (Pos.land q (Pos.succ q)); [done|discriminate]. }
    destruct (IH Hq) as (n & Hn & Heq).
    exists (n + 1)%Z. split; [lia|].
    rewrite Z.pow_add_r by lia. lia.
  - intros H. exfalso.
    replace (Z.pos q~0 + 1)%Z with (Z.pos q~1) in H by lia.
    change (Z.of_N (Pos.Ndouble (Pos.land q q)) = 0%Z) in H.
    pose proof (Z.land_diag (Z.pos q)) as Hd.
    change (Z.of_N (Pos.land q q) = Z.pos q) in Hd.
    destruct (Pos.land q q); discriminate.
  - intros _. exists 1%Z. split; [lia|done].
Qed.

Lemma simple_mask_cases (mask : Z) :
  _is_simple_mask mask = true →
  mask = (-1)%Z ∨ ∃ n : Z, (0 ≤ n)%Z ∧ mask = (2 ^ n - 1)%Z.
Proof.
  unfold _is_simple_mask. rewrite Z.eqb_eq.
  intros H. destruct mask as [|p|p].
  - right. exists 0%Z. split; [lia|done].
  - right. by apply land_succ_pos.
  - destruct (decide (Z.neg p = (-1)%Z)) as [|Hne]; [by left|].
    exfalso.
    assert (Z.land (Z.neg p) (Z.neg p + 1) < 0)%Z as Hneg
      by (apply Z.land_neg; lia).
    lia.
Qed.

(** X1: [_is_simple_mask] accepts exactly -1 and the numbers [2 ** n - 1]. *)
Theorem is_simple_mask_iff (mask : Z) :
  _is_simple_mask mask = true ↔
  mask = (-1)%Z ∨ ∃ n : Z, (0 ≤ n)%Z ∧ mask = (2 ^ n - 1)%Z.
Proof.
  split; [apply simple_mask_cases|].
  unfold _is_simple_mask. rewrite Z.eqb_eq.
  intros [->|(n & Hn & ->)]; [done|].
  replace (2 ^ n - 1 + 1)%Z with (2 ^ n)%Z by lia.
  replace (2 ^ n - 1)%Z with (Z.ones n) by (rewrite Z.ones_equiv; lia).
  rewrite Z.land_comm, Z.land_ones by done.
  apply Z.mod_same. lia.
Qed.

(** X2: a non-negative simple mask keeps every number between 0 and the mask
    and maps every number into that range. *)
Theorem simple_mask_range (mask x : Z) :
  _is_simple_mask mask = true →
  (0 ≤ mask)%Z →
  (0 ≤ Z.land x mask ≤ mask)%Z
  ∧ ((0 ≤ x ≤ mask)%Z → Z.land x mask = x).
Proof.
  intros [->|(n & Hn & ->)]%simple_mask_cases Hpos; [lia|].
  replace (2 ^ n - 1)%Z with (Z.ones n) by (rewrite Z.ones_equiv; lia).
  rewrite Z.land_ones by done. rewrite Z.ones_equiv.
  assert (0 < 2 ^ n)%Z by lia.
  pose proof (Z.mod_pos_bound x (2 ^ n) ltac:(lia)).
  split; [lia|]. intros Hx. apply Z.mod_small. lia.
Qed.

(** X2 at a concrete input. *)
Lemma simple_mask_range_witness :
  (0 ≤ Z.land 300 255 ≤ 255)%Z
  ∧ ((0 ≤ 300 ≤ 255)%Z → Z.land 300 255 = 300%Z).
Proof.
  apply (simple_mask_range 255 300).
  - reflexivity.
  - lia.
Defined.

(** ** A new run *)

Lemma draw_bits_extend (n_bits : Z) (forced : bool) (value : Z) (s : State)
    (node : TreeNode) :
  heap s !! current_node s = Some node →
  transition node = Live →
  index_in_current_node s = length (bits node) →
  length (values node) = length (bits node) →
  draw_bits n_bits forced value s =
    (Returned,
     {| heap := <[current_node s :=
                    {| bits := bits node ++ [n_bits];
                       values := values node ++ [value];
                       transition := Live |}]> (heap s);
        tree := tree s;
        current_node := current_node s;
        index_in_current_node := S (index_in_current_node s) |}).
Proof.
  destruct s as [h t a i]; simpl. intros Hnode Ht -> Hlen.
  unfold draw_bits; simpl. rewrite Hnode.
  rewrite (decide_False (P := length (bits node) < length (bits node))) by lia.
  rewrite Ht. simpl. rewrite length_app. simpl.
  rewrite decide_False by (intros Hn; apply Hn; lia).
  rewrite decide_False by lia.
  rewrite Ht. unfold set_heap, set_values, set_bits; simpl.
  by rewrite list_insert_insert_eq, Ht.
Qed.

Lemma draw_all_extend (ds : list (Z * bool * Z)) :
  ∀ (s : State) (node : TreeNode),
    heap s !! current_node s = Some node →
    transition node = Live →
    index_in_current_node s = length (bits node) →
    length (values node) = length (bits node) →
    draw_all ds s =
      (Returned,
       {| heap := <[current_node s :=
                      {| bits := bits node ++ widths ds;
                         values := values node ++ drawn ds;
                         transition := Live |}]> (heap s);
          tree := tree s;
          current_node := current_node s;
          index_in_current_node := index_in_current_node s + length ds |}).
Proof.
  induction ds as [|[[n_bits forced] value] ds IH]; intros s node Hnode Ht Hi Hlen;
    cbn [draw_all].
  - simpl. rewrite !app_nil_r, Nat.add_0_r.
    rewrite list_insert_id; [by destruct s|].
    rewrite Hnode. f_equal. destruct node; simpl in *. by subst.
  - rewrite (draw_bits_extend _ _ _ s node) by done.
    pose proof (lookup_lt_Some _ _ _ Hnode) as Ha.
    erewrite IH; cycle 1.
    + simpl. by apply list_lookup_insert_eq.
    + done.
    + simpl. rewrite length_app. simpl. lia.
    + simpl. rewrite !length_app. simpl. lia.
    + simpl. rewrite list_insert_insert_eq.
      rewrite <- !(assoc_L (++)). simpl.
      do 2 f_equal. lia.
Qed.

Lemma run_trial_new_tree (cap : Z) (ds : list (Z * bool * Z)) (status : Status)
    (origin : option Z) :
  status ≠ OVERRUN →
  run_trial ds status origin (DataTree_init cap) =
    (Returned,
     {| heap := [ {| bits := widths ds; values := drawn ds;
                     transition := Terminal status |} ];
        tree := {| cap := cap; root := 0 |};
        current_node := 0;
        index_in_current_node := length ds |}).
Proof.
  intros Hst. unfold run_trial.
  rewrite (draw_all_extend ds (new_observer (DataTree_init cap)) TreeNode_new)
    by done.
  unfold conclude_test. simpl. rewrite decide_False by done.
  rewrite decide_False
    by (unfold drawn; rewrite length_map; intros [?|?]; [lia|done]).
  done.
Qed.

(** X3: the first trial on a new tree returns, whatever it draws, and leaves
    one node: the root holds every width and every value of the trial, in
    order, and carries its status. *)
Theorem first_trial (cap : Z) (ds : list (Z * bool * Z)) (status : Status)
    (origin : option Z) :
  status ≠ OVERRUN →
  run_trial ds status origin (DataTree_init cap) =
    (Returned,
     {| heap := [ {| bits := widths ds; values := drawn ds;
                     transition := Terminal status |} ];
        tree := {| cap := cap; root := 0 |};
        current_node := 0;
        index_in_current_node := length ds |}).
Proof. apply run_trial_new_tree. Qed.

(** X3 at a concrete input. *)
Lemma first_trial_witness :
  run_trial [(8%Z, false, 3%Z); (4%Z, true, 1%Z)] INTERESTING None
    (DataTree_init 0) =
    (Returned,
     {| heap := [ {| bits := [8%Z; 4%Z]; values := [3%Z; 1%Z];
                     transition := Terminal INTERESTING |} ];
        tree := {| cap := 0; root := 0 |};
        current_node := 0;
        index_in_current_node := 2 |}).
Proof.
  apply (first_trial 0 [(8%Z, false, 3%Z); (4%Z, true, 1%Z)] INTERESTING None).
  discriminate.
Defined.

(** ** Replaying part of a run *)

Lemma walk_app (h : list TreeNode) (ds1 ds2 : list (Z * bool * Z)) :
  ∀ a i,
    walk h a i (ds1 ++ ds2) =
      match walk h a i ds1 with
      | Some (a', i') => walk h a' i' ds2
      | None => None
      end.
Proof.
  induction ds1 as [|d ds1 IH]; intros a i; cbn [walk app]; [done|].
  destruct (walk_step h a i d) as [[a' i']|]; [apply IH|done].
Qed.

Lemma draw_all_app (ds1 ds2 : list (Z * bool * Z)) :
  ∀ s,
    draw_all (ds1 ++ ds2) s =
      match draw_all ds1 s with
      | (Returned, s') => draw_all ds2 s'
      | r => r
      end.
Proof.
  induction ds1 as [|[[n_bits forced] value] ds1 IH]; intros s;
    cbn [draw_all app]; [done|].
  destruct (draw_bits n_bits forced value s) as [[| |] s']; [apply IH|done|done].
Qed.

(** The draws recorded in a node from position [i] on are replayed within
    the node. *)
Lemma walk_run (h : list TreeNode) (a : nat) (node : TreeNode)
    (ds : list (Z * bool * Z)) :
  h !! a = Some node →
  ∀ i,
    take (length ds) (drop i (bits node)) = widths ds →
    take (length ds) (drop i (values node)) = drawn ds →
    walk h a i ds = Some (a, i + length ds).
Proof.
  intros Hnode.
  induction ds as [|[[n_bits forced] value] ds IH]; intros i Hb Hv; cbn [walk].
  - simpl. by rewrite Nat.add_0_r.
  - simpl in Hb, Hv.
    destruct (drop i (bits node)) as [|w bs] eqn:Hdb; [done|].
    destruct (drop i (values node)) as [|v vs] eqn:Hdv; [done|].
    simpl in Hb, Hv. injection Hb as -> Hb. injection Hv as -> Hv.
    assert (bits node !! i = Some n_bits) as Hw.
    { rewrite <- (Nat.add_0_r i), <- lookup_drop, Hdb. done. }
    assert (values node !! i = Some value) as Hval.
    { rewrite <- (Nat.add_0_r i), <- lookup_drop, Hdv. done. }
    assert (walk_step h a i (n_bits, forced, value) = Some (a, S i)) as ->.
    { apply walk_step_Some. exists node. split; [done|]. split; [done|]. by left. }
    rewrite IH.
    + f_equal. f_equal. simpl. lia.
    + replace (S i) with (i + 1) by lia. by rewrite <- drop_drop, Hdb.
    + replace (S i) with (i + 1) by lia. by rewrite <- drop_drop, Hdv.
Qed.

Lemma length_widths (ds : list (Z * bool * Z)) : length (widths ds) = length ds.
Proof. apply length_map. Qed.

Lemma length_drawn (ds : list (Z * bool * Z)) : length (drawn ds) = length ds.
Proof. apply length_map. Qed.

(** The draws a node starts with are replayed within the node. *)
Lemma walk_prefix (h : list TreeNode) (a : nat) (node : TreeNode)
    (ds : list (Z * bool * Z)) (bl vl : list Z) :
  h !! a = Some node →
  bits node = widths ds ++ bl →
  values node = drawn ds ++ vl →
  walk h a 0 ds = Some (a, length ds).
Proof.
  intros Hnode Hb Hv.
  rewrite (walk_run h a node ds Hnode 0); [done| |].
  - rewrite Hb, drop_0. apply take_app_length'. by rewrite length_widths.
  - rewrite Hv, drop_0. apply take_app_length'. by rewrite length_drawn.
Qed.

(** X4: on a new tree, a trial that ends in OVERRUN records its draws and
    no status; the same draws concluded with another status then return
    and the root carries that status. *)
Theorem overrun_then_conclusion (cap : Z) (ds : list (Z * bool * Z))
    (status : Status) (origin origin' : option Z) :
  status ≠ OVERRUN →
  ∃ s1,
    run_trial ds OVERRUN origin (DataTree_init cap) = (Returned, s1)
    ∧ heap s1 = [ {| bits := widths ds; values := drawn ds;
                     transition := Live |} ]
    ∧ run_trial ds status origin' s1 =
        (Returned,
         {| heap := [ {| bits := widths ds; values := drawn ds;
                         transition := Terminal status |} ];
            tree := {| cap := cap; root := 0 |};
            current_node := 0;
            index_in_current_node := length ds |}).
Proof.
  intros Hst. eexists. split; [|split].
  - unfold run_trial.
    rewrite (draw_all_extend ds (new_observer (DataTree_init cap)) TreeNode_new)
      by done.
    reflexivity.
  - reflexivity.
  - unfold run_trial. simpl.
    erewrite draw_all_walk; cycle 1.
    { simpl. eapply (walk_prefix _ 0 _ ds [] []); [reflexivity| |]; simpl.
      - by rewrite app_nil_r.
      - by rewrite app_nil_r. }
    unfold conclude_test. simpl. rewrite decide_False by done.
    rewrite decide_False
      by (rewrite length_drawn; intros [?|?]; [lia|done]).
    done.
Qed.

(** X4 at a concrete input. *)
Lemma overrun_then_conclusion_witness :
  ∃ s1,
    run_trial [(8%Z, false, 3%Z)] OVERRUN None (DataTree_init 0)
      = (Returned, s1)
    ∧ heap s1 = [ {| bits := [8%Z]; values := [3%Z]; transition := Live |} ]
    ∧ run_trial [(8%Z, false, 3%Z)] VALID None s1 =
        (Returned,
         {| heap := [ {| bits := [8%Z]; values := [3%Z];
                         transition := Terminal VALID |} ];
            tree := {| cap := 0; root := 0 |};
            current_node := 0;
            index_in_current_node := 1 |}).
Proof.
  apply (overrun_then_conclusion 0 [(8%Z, false, 3%Z)] VALID None None).
  discriminate.
Defined.

(** X5: two trials on a new tree that share the draws [ds], draw the same
    width next and differ in the value drawn there.  Both return; the root
    keeps the shared draws and the width of the diverging draw and branches
    on the two values; each child holds the rest of its own trial and its
    status. *)
Theorem diverging_trials (cap : Z) (ds r1 r2 : list (Z * bool * Z))
    (w v1 v2 : Z) (f1 f2 : bool) (st1 st2 : Status) (o1 o2 : option Z) :
  st1 ≠ OVERRUN → st2 ≠ OVERRUN → v1 ≠ v2 →
  ∃ s1,
    run_trial (ds ++ (w, f1, v1) :: r1) st1 o1 (DataTree_init cap)
      = (Returned, s1)
    ∧ run_trial (ds ++ (w, f2, v2) :: r2) st2 o2 s1 =
        (Returned,
         {| heap :=
              [ {| bits := widths ds ++ [w]; values := drawn ds;
                   transition := Branch (<[v2 := 2]> {[ v1 := 1 ]}) |};
                {| bits := widths r1; values := drawn r1;
                   transition := Terminal st1 |};
                {| bits := widths r2; values := drawn r2;
                   transition := Terminal st2 |} ];
            tree := {| cap := cap; root := 0 |};
            current_node := 2;
            index_in_current_node := length r2 |}).
Proof.
  intros Hst1 Hst2 Hne. eexists. split; [by apply run_trial_new_tree|].
  unfold run_trial. simpl.
  assert (widths (ds ++ (w, f1, v1) :: r1) = widths ds ++ w :: widths r1) as Hb
    by (unfold widths; by rewrite map_app).
  assert (drawn (ds ++ (w, f1, v1) :: r1) = drawn ds ++ v1 :: drawn r1) as Hv
    by (unfold drawn; by rewrite map_app).
  rewrite Hb, Hv.
  set (root1 := {| bits := widths ds ++ w :: widths r1;
                   values := drawn ds ++ v1 :: drawn r1;
                   transition := Terminal st1 |}).
  pose proof (length_widths ds) as Hlw.
  pose proof (length_drawn ds) as Hld.
  rewrite draw_all_app.
  erewrite draw_all_walk; cycle 1.
  { simpl. by eapply (walk_prefix _ 0 root1 ds). }
  cbn [draw_all].
  erewrite (draw_bits_split w f2 v2 _ root1 v1); cycle 1.
  { reflexivity. }
  { simpl. by rewrite list_lookup_middle. }
  { simpl. by rewrite list_lookup_middle. }
  { done. }
  erewrite (draw_all_extend r2 _ TreeNode_new); [|reflexivity|done|done|done].
  unfold conclude_test. rewrite decide_False by done. simpl.
  rewrite decide_False
    by (rewrite length_drawn; intros [?|?]; [lia|done]).
  simpl.
  rewrite (take_app_length' (drawn ds)) by done.
  rewrite (cons_middle w), (assoc_L (++)).
  rewrite (take_app_length' (widths ds ++ [w]))
    by (rewrite length_app; simpl; lia).
  rewrite (drop_app_length' (widths ds ++ [w]))
    by (rewrite length_app; simpl; lia).
  rewrite (cons_middle v1 (drawn ds)), (assoc_L (++)).
  rewrite (drop_app_length' (drawn ds ++ [v1]))
    by (rewrite length_app; simpl; lia).
  reflexivity.
Qed.

(** X5 at a concrete input. *)
Lemma diverging_trials_witness :
  ∃ s1,
    run_trial ([(8%Z, false, 3%Z)] ++ (4%Z, false, 1%Z) :: [(2%Z, false, 0%Z)])
      VALID None (DataTree_init 0) = (Returned, s1)
    ∧ run_trial ([(8%Z, false, 3%Z)] ++ (4%Z, true, 2%Z) :: []) INVALID None s1 =
        (Returned,
         {| heap :=
              [ {| bits := widths [(8%Z, false, 3%Z)] ++ [4%Z];
                   values := drawn [(8%Z, false, 3%Z)];
                   transition := Branch (<[2%Z := 2]> {[ 1%Z := 1 ]}) |};
                {| bits := widths [(2%Z, false, 0%Z)];
                   values := drawn [(2%Z, false, 0%Z)];
                   transition := Terminal VALID |};
                {| bits := widths []; values := drawn [];
                   transition := Terminal INVALID |} ];
            tree := {| cap := 0; root := 0 |};
            current_node := 2;
            index_in_current_node := length (@nil (Z * bool * Z)) |}).
Proof.
  apply (diverging_trials 0 [(8%Z, false, 3%Z)] [(2%Z, false, 0%Z)] []
           4 1 2 false true VALID INVALID None None).
  - discriminate.
  - discriminate.
  - discriminate.
Defined.

(** ** draw_bits, case by case *)

(** X6: a draw whose width differs from the width recorded at the index
    raises the inconsistent-generation [Flaky]; the store is untouched and
    the index has advanced. *)
Theorem draw_bits_width_mismatch (n_bits : Z) (forced : bool) (value : Z)
    (s : State) (node : TreeNode) (w : Z) :
  heap s !! current_node s = Some node →
  bits node !! index_in_current_node s = Some w →
  w ≠ n_bits →
  draw_bits n_bits forced value s
    = (Raised inconsistent_generation,
       set_index (S (index_in_current_node s)) s).
Proof.
  intros Hnode Hw Hne. pose proof (lookup_lt_Some _ _ _ Hw) as Hlt.
  unfold draw_bits. simpl. rewrite Hnode, Hw.
  rewrite decide_True by done.
  by rewrite decide_True by congruence.
Qed.

(** X6 at a concrete input. *)
Lemma draw_bits_width_mismatch_witness :
  draw_bits 4 false 3 (new_observer after_A)
    = (Raised inconsistent_generation, set_index 1 (new_observer after_A)).
Proof.
  apply (draw_bits_width_mismatch 4 false 3 (new_observer after_A)
           {| bits := [8%Z]; values := [3%Z]; transition := Terminal VALID |}
           8%Z).
  - reflexivity.
  - reflexivity.
  - discriminate.
Defined.

(** X7: at the end of the values of a node that carries a dict, a draw of
    the recorded width whose value is a key of the dict moves the observer
    to position 0 of that child and changes nothing else. *)
Theorem draw_bits_known_branch (n_bits : Z) (forced : bool) (value : Z)
    (s : State) (node : TreeNode) (d : gmap Z nat) (child : nat) :
  heap s !! current_node s = Some node →
  length (values node) ≤ index_in_current_node s →
  bits node !! index_in_current_node s = Some n_bits →
  transition node = Branch d →
  d !! value = Some child →
  draw_bits n_bits forced value s = (Returned, set_current child 0 s).
Proof.
  intros Hnode Hi Hw Ht Hd.
  apply draw_bits_walk_step, walk_step_Some.
  exists node. split; [done|]. split; [done|]. right. split; [done|].
  by exists d, child.
Qed.

(** X7 at a concrete input. *)
Lemma draw_bits_known_branch_witness :
  draw_bits 8 false 5 (new_observer after_C)
    = (Returned, set_current 2 0 (new_observer after_C)).
Proof.
  apply (draw_bits_known_branch 8 false 5 (new_observer after_C)
           {| bits := [8%Z]; values := [];
              transition := Branch (<[5%Z := 2]> {[ 3%Z := 1 ]}) |}
           (<[5%Z := 2]> {[ 3%Z := 1 ]}) 2).
  - vm_compute. reflexivity.
  - simpl. lia.
  - reflexivity.
  - reflexivity.
  - vm_compute. reflexivity.
Defined.

(** X8: at the end of the values of a node that carries a dict, a draw of
    the recorded width whose value is no key of the dict allocates exactly
    one empty node, adds it to the dict under the value, keeps every other
    entry and every other node, and moves the observer to position 0 of
    the new node. *)
Theorem draw_bits_new_branch (n_bits : Z) (forced : bool) (value : Z)
    (s : State) (node : TreeNode) (d : gmap Z nat) :
  heap s !! current_node s = Some node →
  length (values node) ≤ index_in_current_node s →
  bits node !! index_in_current_node s = Some n_bits →
  transition node = Branch d →
  d !! value = None →
  ∃ s',
    draw_bits n_bits forced value s = (Returned, s')
    ∧ length (heap s') = S (length (heap s))
    ∧ heap s' !! length (heap s) = Some TreeNode_new
    ∧ heap s' !! current_node s =
        Some {| bits := bits node; values := values node;
                transition := Branch (<[value := length (heap s)]> d) |}
    ∧ (∀ k, k ≠ value → (<[value := length (heap s)]> d) !! k = d !! k)
    ∧ (∀ a, a ≠ current_node s → a < length (heap s) →
            heap s' !! a = heap s !! a)
    ∧ current_node s' = length (heap s)
    ∧ index_in_current_node s' = 0.
Proof.
  intros Hnode Hi Hw Ht Hd.
  pose proof (lookup_lt_Some _ _ _ Hnode) as Ha.
  pose proof (lookup_lt_Some _ _ _ Hw) as Hlt.
  eexists. split.
  { unfold draw_bits. simpl. rewrite Hnode, Hw.
    rewrite (decide_True (P := index_in_current_node s < length (bits node)))
      by done.
    rewrite (decide_False (P := Some n_bits ≠ Some n_bits))
      by (intros Hn; by apply Hn).
    simpl.
    rewrite (decide_False (P := ¬ index_in_current_node s < length (bits node)))
      by (intros Hn; by apply Hn).
    rewrite decide_False by lia.
    rewrite Ht, Hd. reflexivity. }
  cbn [heap current_node index_in_current_node set_current set_heap set_index].
  rewrite insert_app_l by done.
  rewrite length_app, length_insert. simpl.
  split; [lia|]. split.
  { rewrite lookup_app_r by (rewrite length_insert; lia).
    by rewrite length_insert, Nat.sub_diag. }
  split.
  { rewrite lookup_app_l by (by rewrite length_insert).
    by rewrite list_lookup_insert_eq. }
  split; [intros k Hk; by rewrite lookup_insert_ne|].
  split; [|done].
  intros a Hna Hla. rewrite lookup_app_l by (by rewrite length_insert).
  by rewrite list_lookup_insert_ne.
Qed.

(** X8 at a concrete input. *)
Lemma draw_bits_new_branch_witness :
  ∃ s',
    draw_bits 8 false 7 (new_observer after_C) = (Returned, s')
    ∧ length (heap s') = S (length (heap (new_observer after_C)))
    ∧ heap s' !! length (heap (new_observer after_C)) = Some TreeNode_new
    ∧ heap s' !! current_node (new_observer after_C) =
        Some {| bits := [8%Z]; values := [];
                transition :=
                  Branch (<[7%Z := length (heap (new_observer after_C))]>
                            (<[5%Z := 2]> {[ 3%Z := 1 ]})) |}
    ∧ (∀ k, k ≠ 7%Z →
            (<[7%Z := length (heap (new_observer after_C))]>
               (<[5%Z := 2]> ({[ 3%Z := 1 ]} : gmap Z nat))) !! k
            = (<[5%Z := 2]> ({[ 3%Z := 1 ]} : gmap Z nat)) !! k)
    ∧ (∀ a, a ≠ current_node (new_observer after_C) →
            a < length (heap (new_observer after_C)) →
            heap s' !! a = heap (new_observer after_C) !! a)
    ∧ current_node s' = length (heap (new_observer after_C))
    ∧ index_in_current_node s' = 0.
Proof.
  apply (draw_bits_new_branch 8 false 7 (new_observer after_C)
           {| bits := [8%Z]; values := [];
              transition := Branch (<[5%Z := 2]> {[ 3%Z := 1 ]}) |}
           (<[5%Z := 2]> {[ 3%Z := 1 ]})).
  - vm_compute. reflexivity.
  - simpl. lia.
  - reflexivity.
  - reflexivity.
  - vm_compute. reflexivity.
Defined.

(** ** split_at out of range *)

(** X9: [split_at(i)] with [i >= len(values)] raises [IndexError] at
    [self.values[i]], after the child has been built and before anything
    is deleted: every node of the store is as it was, and the child is an
    extra node nothing refers to. *)
Theorem split_at_out_of_range (h : list TreeNode) (self i : nat)
    (node : TreeNode) :
  h !! self = Some node →
  length (values node) ≤ i →
  ∃ h',
    split_at h self i = (Raised IndexError, h')
    ∧ length h' = S (length h)
    ∧ ∀ a n, h !! a = Some n → h' !! a = Some n.
Proof.
  intros Hself Hi. eexists. split.
  { unfold split_at. rewrite Hself. simpl.
    by rewrite (lookup_ge_None_2 (values node) i Hi). }
  split; [rewrite length_app; simpl; lia|].
  intros a n Hn. by apply lookup_app_l_Some.
Qed.

(** X9 at a concrete input. *)
Lemma split_at_out_of_range_witness :
  ∃ h',
    split_at [ {| bits := [8%Z]; values := [3%Z]; transition := Live |} ] 0 1
      = (Raised IndexError, h')
    ∧ length h' = 2
    ∧ ∀ a n,
        [ {| bits := [8%Z]; values := [3%Z]; transition := Live |} ] !! a
          = Some n →
        h' !! a = Some n.
Proof.
  apply (split_at_out_of_range
           [ {| bits := [8%Z]; values := [3%Z]; transition := Live |} ] 0 1
           {| bits := [8%Z]; values := [3%Z]; transition := Live |}).
  - reflexivity.
  - simpl. lia.
Defined.

(** ** conclude_test on a node without a status *)

(** X10: a conclusion other than OVERRUN at the end of the values of a node
    whose transition is [None] returns and stores the status in that node;
    the widths and values of the node, every other node and the observer
    stay as they were, and nothing is allocated. *)
Theorem conclude_test_records (status : Status) (origin : option Z)
    (s : State) (node : TreeNode) :
  status ≠ OVERRUN →
  heap s !! current_node s = Some node →
  length (values node) ≤ index_in_current_node s →
  transition node = Live →
  conclude_test status origin s =
    (Returned,
     set_heap (<[current_node s :=
                   {| bits := bits node; values := values node;
                      transition := Terminal status |}]> (heap s)) s).
Proof.
  intros Hst Hnode Hi Ht. unfold conclude_test.
  rewrite decide_False by done. rewrite Hnode, Ht.
  by rewrite decide_False by (intros [?|?]; [lia|done]).
Qed.

(** X10 at a concrete input. *)
Lemma conclude_test_records_witness :
  conclude_test VALID None (DataTree_init 0) =
    (Returned,
     set_heap (<[0 := {| bits := []; values := [];
                         transition := Terminal VALID |}]>
                 (heap (DataTree_init 0))) (DataTree_init 0)).
Proof.
  apply (conclude_test_records VALID None (DataTree_init 0) TreeNode_new).
  - discriminate.
  - reflexivity.
  - simpl. lia.
  - reflexivity.
Defined.

(** X11: a conclusion that has returned can be repeated, with any origin: the
    second call returns as well and changes nothing. *)
Theorem conclude_test_twice (status : Status) (origin origin' : option Z)
    (s s1 : State) :
  conclude_test status origin s = (Returned, s1) →
  conclude_test status origin' s1 = (Returned, s1).
Proof.
  unfold conclude_test.
  destruct (decide (status = OVERRUN)) as [|Hst]; [by intros [= <-]|].
  destruct (heap s !! current_node s) as [node|] eqn:Hnode; [|done].
  pose proof (lookup_lt_Some _ _ _ Hnode) as Ha.
  destruct (decide _) as [|Hlate]; [done|].
  destruct (transition node) as [|d|st] eqn:Ht; [|done|].
  - intros [= <-]. simpl. rewrite list_lookup_insert_eq by done. simpl.
    rewrite decide_False; [by destruct (decide (status ≠ status))|].
    intros [?|?]; [|done]. apply Hlate. by left.
  - destruct (decide (st ≠ status)); [done|]. intros [= <-].
    rewrite Hnode, Ht. rewrite (decide_False (P := _ ∨ _)) by done.
    by destruct (decide (st ≠ status)).
Qed.

(** X11 at a concrete input. *)
Lemma conclude_test_twice_witness :
  conclude_test VALID (Some 7%Z) after_empty = (Returned, after_empty).
Proof.
  apply (conclude_test_twice VALID None (Some 7%Z)
           (new_observer (DataTree_init 0)) after_empty).
  vm_compute. reflexivity.
Defined.

(** ** What a call can do in a reachable state *)

Lemma call_raises (c : Call) (s : State) (e : Exception) :
  reachable s →
  (call c s).1 = Raised e →
  heap (call c s).2 = heap s
  ∧ tree (call c s).2 = tree s
  ∧ current_node (call c s).2 = current_node s
  ∧ ∃ node,
      heap s !! current_node s = Some node ∧
      match c with
      | NewObserver => False
      | DrawBits n_bits _ _ =>
          (e = inconsistent_generation
           ∧ ∃ w, bits node !! index_in_current_node s = Some w ∧ w ≠ n_bits)
          ∨ (e = AssertionError
             ∧ length (bits node) ≤ index_in_current_node s
             ∧ transition node ≠ Live)
      | ConcludeTest status _ =>
          status ≠ OVERRUN ∧
          ((e = inconsistent_generation
            ∧ (index_in_current_node s < length (values node)
               ∨ ∃ d, transition node = Branch d))
           ∨ (e = NameError "existing"
              ∧ length (values node) ≤ index_in_current_node s
              ∧ ∃ st, transition node = Terminal st ∧ st ≠ status))
      end.
Proof.
  intros Hs. pose proof (reachable_wf s Hs) as Hwf.
  destruct (wf_current_node s Hwf) as [node Hnode].
  destruct c as [|n_bits forced value|status origin]; simpl; [done| |].
  - destruct (draw_bits_cases n_bits forced value s node Hwf Hnode)
      as [Hlt Hw | Hge Ht | | | | | ]; simpl; try done.
    + intros [= <-]. split_and!; try done. exists node. split; [done|]. left.
      split; [done|].
      destruct (lookup_lt_is_Some_2 _ _ Hlt) as [w Hw'].
      exists w. split; [done|]. congruence.
    + intros [= <-]. split_and!; try done. exists node. split; [done|]. by right.
  - unfold conclude_test.
    destruct (decide (status = OVERRUN)) as [|Hst]; [done|]. rewrite Hnode.
    destruct (decide _) as [Hearly|Hlate].
    + simpl. intros [= <-]. split_and!; try done. exists node.
      split; [done|]. split; [done|]. left. split; [done|].
      destruct Hearly as [?|Hd]; [by left|right].
      destruct (transition node); [done|by eexists|done].
    + assert (length (values node) ≤ index_in_current_node s) as Hi.
      { apply Nat.nlt_ge. intros ?. apply Hlate. by left. }
      destruct (transition node) as [|d|st] eqn:Ht; simpl; [done| |].
      * exfalso. apply Hlate. by right.
      * destruct (decide (st ≠ status)) as [Hne|]; [|done]. simpl.
        intros [= <-]. split_and!; try done. exists node.
        split; [done|]. split; [done|]. right. split; [done|].
        split; [done|]. by exists st.
Qed.

(** X12: in a reachable state a call that raises has changed nothing in the
    store: every node is as it was and none was allocated; the tree and
    the node of the observer are the same. *)
Theorem raise_leaves_store (c : Call) (s : State) (e : Exception) :
  reachable s →
  (call c s).1 = Raised e →
  heap (call c s).2 = heap s
  ∧ tree (call c s).2 = tree s
  ∧ current_node (call c s).2 = current_node s.
Proof.
  intros Hs He. destruct (call_raises c s e Hs He) as (? & ? & ? & _). done.
Qed.

(** X12 at a concrete input. *)
Lemma raise_leaves_store_witness :
  heap (call (DrawBits 4 false 1) (new_observer after_A)).2
    = heap (new_observer after_A)
  ∧ tree (call (DrawBits 4 false 1) (new_observer after_A)).2
    = tree (new_observer after_A)
  ∧ current_node (call (DrawBits 4 false 1) (new_observer after_A)).2
    = current_node (new_observer after_A).
Proof.
  apply (raise_leaves_store (DrawBits 4 false 1) (new_observer after_A)
           inconsistent_generation).
  - exact (reachable_call NewObserver _ reachable_after_A).
  - reflexivity.
Defined.

(** X13: in a reachable state [draw_bits] raises only in two ways: [Flaky]
    for a width that differs from the recorded one, or [AssertionError]
    from [assert node.transition is None] when the index is past the
    widths of a node that carries a dict or a status.  The assertions of
    [split_at], the later assertions of [draw_bits], [IndexError] and
    [TypeError] never occur. *)
Theorem draw_bits_raises (n_bits : Z) (forced : bool) (value : Z)
    (s : State) (e : Exception) :
  reachable s →
  (draw_bits n_bits forced value s).1 = Raised e →
  ∃ node,
    heap s !! current_node s = Some node ∧
    ((e = inconsistent_generation
      ∧ ∃ w, bits node !! index_in_current_node s = Some w ∧ w ≠ n_bits)
     ∨ (e = AssertionError
        ∧ length (bits node) ≤ index_in_current_node s
        ∧ transition node ≠ Live)).
Proof.
  intros Hs He.
  destruct (call_raises (DrawBits n_bits forced value) s e Hs He)
    as (_ & _ & _ & Hnode). exact Hnode.
Qed.

(** X13 at a concrete input. *)
Lemma draw_bits_raises_witness :
  ∃ node,
    heap (draw_bits 8 false 3 (new_observer after_A)).2
      !! current_node (draw_bits 8 false 3 (new_observer after_A)).2 = Some node ∧
    ((AssertionError = inconsistent_generation
      ∧ ∃ w, bits node !! index_in_current_node
                             (draw_bits 8 false 3 (new_observer after_A)).2 = Some w
             ∧ w ≠ 4%Z)
     ∨ (AssertionError = AssertionError
        ∧ length (bits node)
          ≤ index_in_current_node (draw_bits 8 false 3 (new_observer after_A)).2
        ∧ transition node ≠ Live)).
Proof.
  apply (draw_bits_raises 4 false 1 (draw_bits 8 false 3 (new_observer after_A)).2
           AssertionError).
  - exact (reachable_call (DrawBits 8 false 3) _
             (reachable_call NewObserver _ reachable_after_A)).
  - reflexivity.
Defined.

(** X14: in a reachable state [conclude_test] raises only for a status other
    than OVERRUN, and only in two ways: [Flaky] when values remain ahead of
    the index or the node carries a dict, or [NameError] for the unbound
    [existing] when the node carries another status. *)
Theorem conclude_test_raises (status : Status) (origin : option Z)
    (s : State) (e : Exception) :
  reachable s →
  (conclude_test status origin s).1 = Raised e →
  ∃ node,
    heap s !! current_node s = Some node ∧
    status ≠ OVERRUN ∧
    ((e = inconsistent_generation
      ∧ (index_in_current_node s < length (values node)
         ∨ ∃ d, transition node = Branch d))
     ∨ (e = NameError "existing"
        ∧ length (values node) ≤ index_in_current_node s
        ∧ ∃ st, transition node = Terminal st ∧ st ≠ status)).
Proof.
  intros Hs He.
  destruct (call_raises (ConcludeTest status origin) s e Hs He)
    as (_ & _ & _ & Hnode). exact Hnode.
Qed.

(** X14 at a concrete input. *)
Lemma conclude_test_raises_witness :
  ∃ node,
    heap (new_observer after_C) !! current_node (new_observer after_C)
      = Some node ∧
    VALID ≠ OVERRUN ∧
    ((inconsistent_generation = inconsistent_generation
      ∧ (index_in_current_node (new_observer after_C) < length (values node)
         ∨ ∃ d, transition node = Branch d))
     ∨ (inconsistent_generation = NameError "existing"
        ∧ length (values node) ≤ index_in_current_node (new_observer after_C)
        ∧ ∃ st, transition node = Terminal st ∧ st ≠ VALID)).
Proof.
  apply (conclude_test_raises VALID None (new_observer after_C)
           inconsistent_generation).
  - exact (reachable_call NewObserver _ reachable_after_C).
  - vm_compute. reflexivity.
Defined.

(** X15: in a reachable state no call changes the tree object or shrinks the
    store; only [draw_bits] allocates, and at most two nodes per draw (the
    child of a split and the node for the new value). *)
Theorem store_grows (c : Call) (s : State) :
  reachable s →
  tree (call c s).2 = tree s
  ∧ match c with
    | DrawBits _ _ _ =>
        length (heap s) ≤ length (heap (call c s).2) ≤ length (heap s) + 2
    | _ => length (heap (call c s).2) = length (heap s)
    end.
Proof.
  intros Hs. pose proof (reachable_wf s Hs) as Hwf.
  destruct (wf_current_node s Hwf) as [node Hnode].
  destruct c as [|n_bits forced value|status origin]; simpl; [done| |].
  - destruct (draw_bits_cases n_bits forced value s node Hwf Hnode);
      simpl; unfold split_store;
      rewrite ?length_app, ?length_insert; simpl; (split; [done|lia]).
  - unfold conclude_test. destruct (decide _); [done|]. rewrite Hnode.
    destruct (decide _); [done|].
    destruct (transition node); simpl;
      [by rewrite length_insert|done|by destruct (decide _)].
Qed.

(** X15 at a concrete input. *)
Lemma store_grows_witness :
  tree (call (DrawBits 8 false 5) (new_observer after_A)).2
    = tree (new_observer after_A)
  ∧ length (heap (new_observer after_A))
    ≤ length (heap (call (DrawBits 8 false 5) (new_observer after_A)).2)
    ≤ length (heap (new_observer after_A)) + 2.
Proof.
  apply (store_grows (DrawBits 8 false 5) (new_observer after_A)).
  exact (reachable_call NewObserver _ reachable_after_A).
Defined.

(** ** Trials the store holds *)

Lemma holds_status (h : list TreeNode) (r : nat) (ds : list (Z * bool * Z))
    (st st' : Status) :
  holds h r ds st → holds h r ds st' → st' = st.
Proof.
  intros (a & i & Hw & n & Hn & _ & Ht) (a' & i' & Hw' & n' & Hn' & _ & Ht').
  congruence.
Qed.

(** X16: a trial the store holds in a reachable state is held after any
    further calls, and with the same status: a later split moves it and a
    later conclusion never overwrites it. *)
Theorem recorded_status_is_kept (cs : list Call) (ds : list (Z * bool * Z))
    (st : Status) (s : State) :
  reachable s →
  holds (heap s) (root (tree s)) ds st →
  holds (heap (calls cs s)) (root (tree (calls cs s))) ds st
  ∧ ∀ st', holds (heap (calls cs s)) (root (tree (calls cs s))) ds st' →
           st' = st.
Proof.
  intros Hs Hholds.
  destruct (holds_calls cs ds st s Hs Hholds) as [_ Hkept].
  split; [done|]. intros st' Hst'. exact (holds_status _ _ ds st st' Hkept Hst').
Qed.

(** X16 at a concrete input. *)
Lemma recorded_status_is_kept_witness :
  holds (heap (calls [NewObserver; DrawBits 8 false 5; ConcludeTest INVALID None]
                 after_A))
    (root (tree (calls [NewObserver; DrawBits 8 false 5;
                        ConcludeTest INVALID None] after_A)))
    [(8%Z, false, 3%Z)] VALID
  ∧ ∀ st',
      holds (heap (calls [NewObserver; DrawBits 8 false 5;
                          ConcludeTest INVALID None] after_A))
        (root (tree (calls [NewObserver; DrawBits 8 false 5;
                            ConcludeTest INVALID None] after_A)))
        [(8%Z, false, 3%Z)] st' →
      st' = VALID.
Proof.
  apply (recorded_status_is_kept
           [NewObserver; DrawBits 8 false 5; ConcludeTest INVALID None]
           [(8%Z, false, 3%Z)] VALID after_A).
  - exact reachable_after_A.
  - exists 0, 1. split; [reflexivity|].
    exists {| bits := [8%Z]; values := [3%Z]; transition := Terminal VALID |}.
    split; [reflexivity|]. split; [simpl; lia|reflexivity].
Defined.

(** X17: when the store holds a trial, a trial that makes only the first
    draws of it and concludes with a status other than OVERRUN raises the
    inconsistent-generation [Flaky]; the store is untouched. *)
Theorem early_end_is_flaky (ds ds' : list (Z * bool * Z)) (d : Z * bool * Z)
    (st status : Status) (origin : option Z) (s : State) :
  holds (heap s) (root (tree s)) (ds ++ d :: ds') st →
  status ≠ OVERRUN →
  ∃ a i,
    run_trial ds status origin s
      = (Raised inconsistent_generation, set_current a i s).
Proof.
  intros (a1 & i1 & Hwalk & _) Hst.
  rewrite walk_app in Hwalk.
  destruct (walk (heap s) (root (tree s)) 0 ds) as [[a i]|] eqn:Hds; [|done].
  exists a, i. unfold run_trial.
  rewrite (draw_all_walk ds (new_observer s) a i) by exact Hds.
  cbn [walk] in Hwalk.
  destruct d as [[n_bits forced] value].
  destruct (walk_step (heap s) a i (n_bits, forced, value)) as [p|] eqn:Hstep;
    [|done].
  apply walk_step_Some in Hstep as (node & Hnode & Hw & Hcase).
  unfold conclude_test. rewrite decide_False by done. simpl. rewrite Hnode.
  rewrite decide_True; [by destruct s|].
  destruct Hcase as [[Hv _]|(_ & dict & c & Ht & _)].
  - left. by eapply lookup_lt_Some.
  - right. by rewrite Ht.
Qed.

(** X17 at a concrete input. *)
Lemma early_end_is_flaky_witness :
  ∃ a i,
    run_trial [] INVALID None after_A
      = (Raised inconsistent_generation, set_current a i after_A).
Proof.
  apply (early_end_is_flaky [] [] (8%Z, false, 3%Z) VALID INVALID None after_A).
  - exists 0, 1. split; [reflexivity|].
    exists {| bits := [8%Z]; values := [3%Z]; transition := Terminal VALID |}.
    split; [reflexivity|]. split; [simpl; lia|reflexivity].
  - discriminate.
Defined.

(** X18: when the store holds a trial, a trial that makes the first draws of
    it and then draws another width where the held trial drew width [w]
    raises the inconsistent-generation [Flaky] at that draw; the store is
    untouched. *)
Theorem changed_width_is_flaky (ds rest : list (Z * bool * Z))
    (w w' v v' : Z) (f f' : bool) (st : Status) (s : State) :
  holds (heap s) (root (tree s)) (ds ++ (w, f, v) :: rest) st →
  w' ≠ w →
  ∃ a i,
    draw_all (ds ++ [(w', f', v')]) (new_observer s)
      = (Raised inconsistent_generation, set_current a (S i) s).
Proof.
  intros (a1 & i1 & Hwalk & _) Hne.
  rewrite walk_app in Hwalk.
  destruct (walk (heap s) (root (tree s)) 0 ds) as [[a i]|] eqn:Hds; [|done].
  exists a, i. rewrite draw_all_app.
  rewrite (draw_all_walk ds (new_observer s) a i) by exact Hds.
  cbn [walk] in Hwalk.
  destruct (walk_step (heap s) a i (w, f, v)) as [p|] eqn:Hstep; [|done].
  apply walk_step_Some in Hstep as (node & Hnode & Hw & _).
  cbn [draw_all].
  pose proof (lookup_lt_Some _ _ _ Hw) as Hlt.
  unfold draw_bits. simpl. rewrite Hnode, Hw.
  rewrite decide_True by done.
  rewrite decide_True by congruence.
  by destruct s.
Qed.

(** X18 at a concrete input. *)
Lemma changed_width_is_flaky_witness :
  ∃ a i,
    draw_all ([] ++ [(4%Z, false, 3%Z)]) (new_observer after_A)
      = (Raised inconsistent_generation, set_current a (S i) after_A).
Proof.
  apply (changed_width_is_flaky [] [] 8 4 3 3 false false VALID after_A).
  - exists 0, 1. split; [reflexivity|].
    exists {| bits := [8%Z]; values := [3%Z]; transition := Terminal VALID |}.
    split; [reflexivity|]. split; [simpl; lia|reflexivity].
  - discriminate.
Defined.
